(** * Gradient descent: a shallow embedding of [gradient_descent.py]

    The development models the class [GradientDescent] of
    [src/gradient_descent_basics/gradient_descent.py]: its constructor, the
    gradient acquisition [_get_gradient] and the loop of [optimize].

    Numbers.  The Python code computes on [float], that is IEEE-754 binary64.
    The model is written once over an interface [Arith] of the operations the
    code uses and is instantiated twice: at Rocq's primitive binary64 floats
    (what the program computes) and at the rationals (exact arithmetic, the
    idealisation in which the analytic properties of the method hold).

    Values.  A point is either a bare scalar (a Python [float]) or a NumPy
    array; the model covers one-dimensional arrays, so a [shape] is the length
    [n] of the tuple [(n,)].

    Effects.  [optimize] prints one line and, when no start is given, draws
    from NumPy's process-wide generator; callables may raise.  These are
    modelled by a state-and-exception monad over a [world] that holds the
    generator's position and the lines written to standard output.  The
    warnings NumPy writes to standard error when array arithmetic overflows
    or yields a NaN are not part of the model: no statement below speaks of
    them. *)

From Stdlib Require Import List Ascii String Bool Arith ZArith Lia.
From Stdlib Require Import DecimalString.
From Stdlib Require Import Reals Qreals.
From Stdlib Require Lra.
From Stdlib Require Import QArith Qabs Lqa.
From Stdlib Require Import Floats.
Import ListNotations.

Set Implicit Arguments.
Close Scope Q_scope.
Open Scope nat_scope.

(** ** Arithmetic interface *)

(** The operations of [float] that the source applies.  [sqrt_lt s e] is the
    test [sqrt(s) < e], the last step of [np.linalg.norm(delta) < eps]. *)
Class Arith (A : Type) : Type := {
  zero : A;                   (* 0.0, the empty sum of a dot product *)
  two : A;                    (* the literal 2 of [2 * eps] *)
  fd_eps : A;                 (* the literal 1e-5 *)
  add : A -> A -> A;
  sub : A -> A -> A;
  mul : A -> A -> A;
  div : A -> A -> A;
  sqrt_lt : A -> A -> bool
}.

Declare Scope arith_scope.
Delimit Scope arith_scope with ar.
Infix "+" := add : arith_scope.
Infix "-" := sub : arith_scope.
Infix "*" := mul : arith_scope.
Infix "/" := div : arith_scope.

(** ** Exceptions and results *)

Inductive exn : Type :=
| ValueError (msg : string)
| TypeError (msg : string)
| Exception (msg : string).

Inductive result (T : Type) : Type :=
| Ok (v : T)
| Raise (e : exn).

Arguments Ok {T} v.
Arguments Raise {T} e.

(** ** The world: what a call can observe or change outside its arguments *)

Record world : Type := mkWorld {
  rng_pos : nat;          (* draws consumed from the process-wide generator *)
  stdout : list string    (* lines printed so far *)
}.

(** State threaded through a computation that may raise. *)
Definition M (T : Type) : Type := world -> result T * world.

Definition ret {T} (v : T) : M T := fun w => (Ok v, w).

Definition bind {T U} (m : M T) (k : T -> M U) : M U :=
  fun w => match m w with
           | (Ok v, w') => k v w'
           | (Raise e, w') => (Raise e, w')
           end.

Definition lift {T} (r : result T) : M T := fun w => (r, w).

Definition print (line : string) : M unit :=
  fun w => (Ok tt, mkWorld (rng_pos w) (stdout w ++ [line])).

Notation "x <- m ;; k" := (bind m (fun x => k))
  (at level 61, m at next level, right associativity).
Notation "m ;;; k" := (bind m (fun _ => k))
  (at level 61, right associativity).

(** ** The optimizer *)

(** The stored attributes.  [__init__] only tests its arguments against
    [None], so the record is parametric in what a function reference is. *)
Record GradientDescent (F : Type) : Type := mkGD {
  func : option F;
  grad_func : option F
}.

Definition __init__ {F : Type} (func grad_func : option F)
  : result (GradientDescent F) :=
  match func, grad_func with
  | None, None => Raise (ValueError "Either func or grad_func must be provided")
  | _, _ => Ok (mkGD func grad_func)
  end.

Section Optimizer.

Context {A : Type} {arith : Arith A}.
Local Open Scope arith_scope.

(** A point, a gradient or a step: a bare scalar or a one-dimensional array. *)
Inductive value : Type :=
| Scalar (a : A)
| Array (l : list A).

Definition isinstance_ndarray (v : value) : bool :=
  match v with Scalar _ => false | Array _ => true end.

(** [np.array([v])] for a scalar [v]; the source calls it on scalars only. *)
Definition np_array1 (v : value) : value :=
  match v with Scalar a => Array [a] | Array l => Array l end.

(** A user-supplied objective or gradient: pure, possibly raising. *)
Definition callable : Type := value -> result value.

(** [v + e] and [v - e] for a float [e]: element-wise on an array. *)
Definition add_float (v : value) (e : A) : value :=
  match v with
  | Scalar a => Scalar (a + e)
  | Array l => Array (map (fun a => a + e) l)
  end.

Definition sub_float (v : value) (e : A) : value :=
  match v with
  | Scalar a => Scalar (a - e)
  | Array l => Array (map (fun a => a - e) l)
  end.

Definition div_float (v : value) (e : A) : value :=
  match v with
  | Scalar a => Scalar (a / e)
  | Array l => Array (map (fun a => a / e) l)
  end.

(** [lr * v] for a float [lr]. *)
Definition float_mul (lr : A) (v : value) : value :=
  match v with
  | Scalar a => Scalar (lr * a)
  | Array l => Array (map (fun a => lr * a) l)
  end.

Fixpoint zip_sub (l1 l2 : list A) : list A :=
  match l1, l2 with
  | a :: l1', b :: l2' => (a - b) :: zip_sub l1' l2'
  | _, _ => []
  end.

(** The message of the [ValueError] NumPy raises for operands of the
    shapes [(m,)] and [(n,)]. *)
Definition broadcast_message (m n : nat) : string :=
  ("operands could not be broadcast together with shapes ("
   ++ NilZero.string_of_uint (Nat.to_uint m) ++ ",) ("
   ++ NilZero.string_of_uint (Nat.to_uint n) ++ ",) ")%string.

(** [u - v] with NumPy's broadcasting of one-dimensional operands: equal
    lengths subtract element-wise, a length-one operand is stretched, any
    other pair of lengths raises. *)
Definition value_sub (u v : value) : result value :=
  match u, v with
  | Scalar a, Scalar b => Ok (Scalar (a - b))
  | Scalar a, Array l => Ok (Array (map (fun b => a - b) l))
  | Array l, Scalar b => Ok (Array (map (fun a => a - b) l))
  | Array l1, Array l2 =>
      if Nat.eqb (List.length l1) (List.length l2) then Ok (Array (zip_sub l1 l2))
      else match l1, l2 with
           | [a], _ => Ok (Array (map (fun b => a - b) l2))
           | _, [b] => Ok (Array (map (fun a => a - b) l1))
           | _, _ =>
               Raise (ValueError
                        (broadcast_message (List.length l1) (List.length l2)))
           end
  end.

(** The entries of an array (of a scalar: itself). *)
Definition data (v : value) : list A :=
  match v with Scalar a => [a] | Array l => l end.

(** [x.dot(x)], the sum of the squared entries, taken from left to right
    with every product and sum rounded.  On one entry this is what NumPy
    computes; on more, NumPy's BLAS may fuse or reorder the operations and
    differ in the last place in binary64. *)
Definition sqnorm (l : list A) : A :=
  fold_left (fun s a => s + a * a) l zero.

(** [np.linalg.norm(delta) < eps]. *)
Definition norm_lt (delta : value) (eps : A) : bool :=
  sqrt_lt (sqnorm (data delta)) eps.

Definition _get_gradient (self : GradientDescent callable) (x : value)
  : result value :=
  match grad_func self with
  | Some g => g x
  | None =>
      let eps := fd_eps in
      match func self with
      | None => Raise (TypeError "'NoneType' object is not callable")
      | Some f =>
          match f (add_float x eps) with
          | Raise e => Raise e
          | Ok fp =>
              match f (sub_float x eps) with
              | Raise e => Raise e
              | Ok fm =>
                  match value_sub fp fm with
                  | Raise e => Raise e
                  | Ok d => Ok (div_float d (two * eps))
                  end
              end
          end
      end
  end.

(** One entry of the history: the dict [{"x": x, "grad": grad}]. *)
Record hist : Type := mkHist {
  hist_x : value;
  hist_grad : value
}.

(** The process-wide generator: [gauss k] is the [k]-th standard-normal
    variate it yields; a draw of [n] values consumes the next [n]. *)
Variable gauss : nat -> A.

Definition randn (n : nat) : M value :=
  fun w => (Ok (Array (map gauss (seq (rng_pos w) n))),
            mkWorld (rng_pos w + n) (stdout w)).

Definition randn_scalar : M value :=
  fun w => (Ok (Scalar (gauss (rng_pos w))),
            mkWorld (rng_pos w + 1) (stdout w)).

Definition converged_line (i : nat) : string :=
  ("Converged in " ++ NilZero.string_of_uint (Nat.to_uint i)
     ++ " iterations. Breaking...")%string.

Definition not_converged_line (max_iter : Z) : string :=
  ("Not converged after " ++ NilZero.string_of_int (Z.to_int max_iter)
     ++ " iterations.")%string.

Section Run.

Variable self : GradientDescent callable.
Variables lr eps : A.

(** The body of [for i in range(max_iter)], [n] iterations remaining; the
    result carries the local [converged] besides [x] and [history]. *)
Fixpoint loop (n i : nat) (x : value) (history : list hist)
  : M (value * list hist * bool) :=
  match n with
  | O => ret (x, history, false)
  | S n' =>
      grad <- lift (_get_gradient self x) ;;
      let delta := float_mul lr grad in
      let delta :=
        if isinstance_ndarray delta then delta else np_array1 delta in
      if norm_lt delta eps then
        print (converged_line i) ;;;
        ret (x, history, true)
      else
        let x := if isinstance_ndarray x then x else np_array1 x in
        x <- lift (value_sub x delta) ;;
        loop n' (S i) x (history ++ [mkHist x grad])
  end.

Definition optimize (start : option value) (max_iter : Z)
  (shape : option nat) : M (value * list hist) :=
  x <- match start with
       | None => match shape with
                 | Some n => randn n
                 | None => randn_scalar
                 end
       | Some s => ret s
       end ;;
  r <- loop (Z.to_nat max_iter) 0 x [] ;;
  let '(x, history, converged) := r in
  (if negb converged then print (not_converged_line max_iter) else ret tt) ;;;
  ret (x, history).

End Run.

End Optimizer.

Arguments value A : clear implicits.
Arguments hist A : clear implicits.
Arguments callable A : clear implicits.

(** ** Instances of the arithmetic *)

Set Warnings "-inexact-float".

(** Python's [float]: binary64, every operation correctly rounded. *)
#[export] Instance float_arith : Arith float := {|
  zero := 0%float;
  two := 2%float;
  fd_eps := 1e-5%float;
  add := PrimFloat.add;
  sub := PrimFloat.sub;
  mul := PrimFloat.mul;
  div := PrimFloat.div;
  sqrt_lt s e := PrimFloat.ltb (PrimFloat.sqrt s) e
|}.

(** [a < b] on the rationals, as a boolean. *)
Definition Qltb (a b : Q) : bool := negb (Qle_bool b a).

(** Exact arithmetic on the rationals.  A rational has no square root in
    general; for [0 <= s] the test [sqrt s < e] is [0 < e] and [s < e * e]. *)
#[export] Instance Q_arith : Arith Q := {|
  zero := 0%Q;
  two := 2%Q;
  fd_eps := (1 # 100000)%Q;
  add := Qplus;
  sub := Qminus;
  mul := Qmult;
  div := Qdiv;
  sqrt_lt s e := Qltb 0 e && Qltb s (e * e)
|}.

(** ** Sample objectives *)

Definition vmap {A : Type} (f : A -> A) (v : value A) : value A :=
  match v with
  | Scalar a => Scalar (f a)
  | Array l => Array (map f l)
  end.

(** [lambda x: x * x], the objective [f(x) = x^2]. *)
Definition square {A : Type} {arith : Arith A} : callable A :=
  fun x => Ok (vmap (fun a => mul a a) x).

(** [lambda x: 2 * x], its gradient. *)
Definition two_x {A : Type} {arith : Arith A} : callable A :=
  fun x => Ok (vmap (fun a => mul two a) x).

(** ** Vocabulary of the statements *)

(** The number of variates a call takes from the generator: none when a
    start is given, [n] for the shape [(n,)], one for a scalar. *)
Definition draws {A : Type} (start : option (value A)) (shape : option nat)
  : nat :=
  match start, shape with
  | Some _, _ => 0
  | None, Some n => n
  | None, None => 1
  end.

(** The point the loop starts from: the start when given, else the draw
    made in the world [w]. *)
Definition initial_point {A : Type} (gauss : nat -> A)
  (start : option (value A)) (shape : option nat) (w : world) : value A :=
  match start, shape with
  | Some s, _ => s
  | None, Some n => Array (map gauss (seq (rng_pos w) n))
  | None, None => Scalar (gauss (rng_pos w))
  end.

Section RunPredicates.

Context {A : Type} {arith : Arith A}.
Variable gauss : nat -> A.
Variable self : GradientDescent (callable A).
Variables lr eps : A.

(** [h] records updates really applied from [x] on: each record holds the
    gradient acquired at the point before it, a step that did not pass the
    convergence test, and the point after the step. *)
Fixpoint applied_updates (x : value A) (h : list (hist A)) : Prop :=
  match h with
  | [] => True
  | r :: h' =>
      _get_gradient self x = Ok (hist_grad r)
      /\ norm_lt (np_array1 (float_mul lr (hist_grad r))) eps = false
      /\ value_sub (np_array1 x) (np_array1 (float_mul lr (hist_grad r)))
         = Ok (hist_x r)
      /\ applied_updates (hist_x r) h'
  end.

(** The point reached after the records of [h], starting from [x]. *)
Definition last_point (x : value A) (h : list (hist A)) : value A :=
  last (map (@hist_x A) h) x.

(** What a finished loop says about its result and about the world. *)
Definition loop_post (n i : nat) (x : value A) (history : list (hist A))
  (w : world) (out : result (value A * list (hist A) * bool) * world) : Prop :=
  rng_pos (snd out) = rng_pos w /\
  match fst out with
  | Raise _ => stdout (snd out) = stdout w
  | Ok (xf, hf, c) =>
      exists t, hf = history ++ t /\ applied_updates x t
        /\ xf = last_point x t
        /\ if c : bool
           then List.length t < n
                /\ stdout (snd out)
                   = stdout w ++ [converged_line (i + List.length t)]
                /\ exists g, _get_gradient self xf = Ok g
                     /\ norm_lt (np_array1 (float_mul lr g)) eps = true
           else List.length t = n /\ stdout (snd out) = stdout w
  end.

(** The world once the initial point is chosen. *)
Definition after_draw (start : option (value A)) (shape : option nat)
  (w : world) : world :=
  match start with
  | Some _ => w
  | None => mkWorld (rng_pos w + draws start shape) (stdout w)
  end.

(** How a call ends: by the convergence break after [length h] applied
    updates, or with the iteration budget used up. *)
Definition ending (max_iter : Z) (w w' : world) (xf : value A)
  (h : list (hist A)) : Prop :=
  (List.length h < Z.to_nat max_iter
   /\ stdout w' = stdout w ++ [converged_line (List.length h)]
   /\ exists g, _get_gradient self xf = Ok g
        /\ norm_lt (np_array1 (float_mul lr g)) eps = true)
  \/
  (List.length h = Z.to_nat max_iter
   /\ stdout w' = stdout w ++ [not_converged_line max_iter]).

(** What a finished call says about its result and about the world. *)
Definition optimize_post (start : option (value A)) (max_iter : Z)
  (shape : option nat) (w : world)
  (out : result (value A * list (hist A)) * world) : Prop :=
  rng_pos (snd out) = rng_pos w + draws start shape /\
  match fst out with
  | Raise _ => stdout (snd out) = stdout w
  | Ok (xf, h) =>
      applied_updates (initial_point gauss start shape w) h
      /\ xf = last_point (initial_point gauss start shape w) h
      /\ ending max_iter w (snd out) xf h
  end.

(** Runs that raise nothing, for a set [P] of points closed under the steps
    of the run.  At a point of [P] the gradient is acquired and either passes
    the convergence test or gives an update that lands in [P] again. *)
Definition steps_safely (P : value A -> Prop) : Prop :=
  forall v, P v ->
    exists g, _get_gradient self v = Ok g
      /\ (norm_lt (np_array1 (float_mul lr g)) eps = true
          \/ exists x', value_sub (np_array1 v) (np_array1 (float_mul lr g))
                         = Ok x' /\ P x').

(** At a point of [P] the step never passes the convergence test. *)
Definition never_converges (P : value A -> Prop) : Prop :=
  forall v, P v ->
    exists g x', _get_gradient self v = Ok g
      /\ norm_lt (np_array1 (float_mul lr g)) eps = false
      /\ value_sub (np_array1 v) (np_array1 (float_mul lr g)) = Ok x'
      /\ P x'.

End RunPredicates.

(** A value with exactly one entry: a scalar or a one-element array. *)
Definition single {A : Type} {arith : Arith A} (v : value A) : Prop :=
  List.length (data v) = 1.

(** The gradient of a one-entry point has one entry. *)
Definition scalar_mode {A : Type} {arith : Arith A}
  (self : GradientDescent (callable A)) : Prop :=
  forall v g, single v -> _get_gradient self v = Ok g -> single g.

(** The finite-difference quotient of [x^2] at [q], as the code forms it. *)
Definition fd_square (q : Q) : Q :=
  (((q + fd_eps) * (q + fd_eps) - (q - fd_eps) * (q - fd_eps))
   / (2 * fd_eps))%Q.

(** The two ways of minimising [x^2]: by finite differences of the
    objective, or with the gradient [2 x] supplied. *)
Definition square_optimizer (self : GradientDescent (callable Q)) : Prop :=
  self = mkGD (Some square) None \/ exists f, self = mkGD f (Some two_x).




(** ** Sample runs *)

(** Nothing drawn, nothing printed. *)
Definition empty_world : world := mkWorld 0 [].

(** Descent on [x^2] with the gradient [2 x] supplied, exact arithmetic. *)
Definition descent_2x : GradientDescent (callable Q) :=
  mkGD None (Some two_x).

(** A gradient that is [1] everywhere: the step never shrinks. *)
Definition constant_slope : GradientDescent (callable Q) :=
  mkGD None (Some (fun _ => Ok (Scalar 1%Q))).

(** A stream of variates for runs that are given their start. *)
Definition no_draws : nat -> Q := fun _ => 0%Q.


(** ** Further vocabulary: failures and shapes *)

Section FailurePredicates.

Context {A : Type} {arith : Arith A}.
Variable self : GradientDescent (callable A).
Variables lr eps : A.

(** The iteration at the point [x] raises [e]: in the gradient acquisition,
    or in the subtraction of a step that did not pass the convergence test. *)
Definition fails_at (x : value A) (e : exn) : Prop :=
  _get_gradient self x = Raise e
  \/ exists g, _get_gradient self x = Ok g
       /\ norm_lt (np_array1 (float_mul lr g)) eps = false
       /\ value_sub (np_array1 x) (np_array1 (float_mul lr g)) = Raise e.

End FailurePredicates.

(** The number of entries of a value: one for a scalar. *)
Definition entries {A : Type} {arith : Arith A} (v : value A) : nat :=
  List.length (data v).

(** A scalar for a scalar, an array of the same length for an array. *)
Definition same_shape {A : Type} {arith : Arith A} (u v : value A) : Prop :=
  isinstance_ndarray u = isinstance_ndarray v /\ entries u = entries v.

(** A callable that never raises and returns a value shaped as its input. *)
Definition shape_preserving {A : Type} {arith : Arith A} (c : callable A)
  : Prop :=
  forall v, exists r, c v = Ok r /\ same_shape v r.

(** The callable that gradient acquisition evaluates. *)
Definition acquires_from {A : Type} (func grad_func : option (callable A))
  : option (callable A) :=
  match grad_func with
  | Some g => Some g
  | None => func
  end.

(** A one-entry value holding a NaN. *)
Definition is_nan_point (v : value float) : Prop :=
  np_array1 v = Array [PrimFloat.nan].

(** The result of a call, with [h0] put in front of the returned history. *)
Definition prepend_history {A : Type} (h0 : list (hist A))
  (r : result (value A * list (hist A))) : result (value A * list (hist A)) :=
  match r with
  | Ok (x, h) => Ok (x, h0 ++ h)
  | Raise e => Raise e
  end.

(** ** [manim_utils.py] *)

Section SnakeCase.

(** Characters and the two [str] methods the loop calls on each of them;
    [lower] returns a string, since the lower case of one character can be
    more than one character. *)
Variable char : Type.
Variable isupper : char -> bool.
Variable lower : char -> list char.
Variable underscore : char.

(** The body of [for i, char in enumerate(pascal_case_string)], from index
    [i] on, with the string built so far. *)
Fixpoint snake_loop (i : nat) (s : list char) (snake_case_string : list char)
  : list char :=
  match s with
  | [] => snake_case_string
  | c :: s' =>
      let snake_case_string :=
        if (0 <? i) && isupper c
        then snake_case_string ++ [underscore]
        else snake_case_string in
      snake_loop (S i) s' (snake_case_string ++ lower c)
  end.

Definition pascal_case_to_snake_case (pascal_case_string : list char)
  : list char :=
  snake_loop 0 pascal_case_string [].

(** The number of upper-case characters of a string. *)
Definition count_upper (s : list char) : nat :=
  List.length (filter isupper s).

End SnakeCase.

(** The methods on ASCII characters: ['A'] to ['Z'] are upper case and are
    lowered by adding 32; any other character is its own lower case. *)
Definition ascii_isupper (c : ascii) : bool :=
  (65 <=? nat_of_ascii c) && (nat_of_ascii c <=? 90).

Definition ascii_lower (c : ascii) : list ascii :=
  [if ascii_isupper c then ascii_of_nat (nat_of_ascii c + 32) else c].

Definition ascii_snake_case (s : string) : string :=
  string_of_list_ascii
    (pascal_case_to_snake_case ascii_isupper ascii_lower "_"%char
       (list_ascii_of_string s)).

Section Colors.

(** The colours of [manim.utils.color] that [get_colors] imports, and the
    method [invert] of a colour. *)
Variable color : Type.
Variable invert : color -> color.
Variables BLACK WHITE GRAY_A RED_A BLUE_A GREEN_A MAROON_A TEAL_A
  DARKER_GRAY : color.

Definition get_colors (dark_mode : bool) : color * color * list color :=
  let BACKGROUND_COLOR := WHITE in
  let PRIMARY_COLOR := BLACK in
  let PRIMARY_COLORS :=
    [WHITE; GRAY_A; RED_A; MAROON_A; BLUE_A; GREEN_A; TEAL_A; DARKER_GRAY] in
  if dark_mode
  then (invert BACKGROUND_COLOR, invert PRIMARY_COLOR,
        map invert PRIMARY_COLORS)
  else (BACKGROUND_COLOR, PRIMARY_COLOR, PRIMARY_COLORS).

End Colors.

(** ** Further sample runs *)

(** [r ^ k] on the rationals. *)
Fixpoint Qpow (r : Q) (k : nat) : Q :=
  match k with
  | O => 1%Q
  | S k' => (r * Qpow r k')%Q
  end.

(** Descent on [x^2] with the gradient [2 x] supplied, binary64. *)
Definition float_descent_2x : GradientDescent (callable float) :=
  mkGD None (Some two_x).

(** A gradient function that raises on every call. *)
Definition raising_gradient : GradientDescent (callable Q) :=
  mkGD None (Some (fun _ => Raise (Exception "no gradient"))).

(** ** Vocabulary of the statements on single runs *)

Section RunsUnconverged.

Context {A : Type} {arith : Arith A}.
Variable self : GradientDescent (callable A).
Variables lr eps : A.

(** In each of the first [n] iterations from [x] the gradient is acquired,
    its step does not pass the convergence test, and the update is applied:
    no iteration's delta norm falls below [eps]. *)
Fixpoint runs_unconverged (n : nat) (x : value A) : Prop :=
  match n with
  | O => True
  | S n' =>
      exists g x',
        _get_gradient self x = Ok g
        /\ norm_lt (np_array1 (float_mul lr g)) eps = false
        /\ value_sub (np_array1 x) (np_array1 (float_mul lr g)) = Ok x'
        /\ runs_unconverged n' x'
  end.

End RunsUnconverged.

(** [x'] is the array of the entries [l] minus [lr] times the gradient [g],
    entry by entry: along equal lengths, or with the single entry of the one
    stretched over the other. *)
Definition steps_to {A : Type} {arith : Arith A} (lr : A) (l : list A)
  (g x' : value A) : Prop :=
  let gs := match g with Scalar d => [d] | Array ds => ds end in
  (List.length l = List.length gs \/ List.length gs = 1 \/ List.length l = 1)
  /\ (List.length l = List.length gs ->
      x' = Array (map (fun p => sub (fst p) (mul lr (snd p))) (combine l gs)))
  /\ (forall d, gs = [d] -> x' = Array (map (fun a => sub a (mul lr d)) l))
  /\ (forall a, l = [a] -> x' = Array (map (fun d => sub a (mul lr d)) gs)).

(** [lambda x: np.sum(x * x)], an objective with one value for a vector. *)
Definition sum_of_squares {A : Type} {arith : Arith A} : callable A :=
  fun x => Ok (Scalar (fold_left (fun s a => add s (mul a a))
                         (match x with Scalar a => [a] | Array l => l end)
                         zero)).



(** ** Lemmas on the arithmetic *)

Lemma Qltb_lt (a b : Q) : Qltb a b = true <-> (a < b)%Q.
Proof.
  unfold Qltb. rewrite negb_true_iff. split.
  - intros H. apply Qnot_le_lt. intros Hle. apply Qle_bool_iff in Hle.
    congruence.
  - intros H. destruct (Qle_bool b a) eqn:E; [|reflexivity].
    apply Qle_bool_iff in E. exfalso. apply (Qlt_not_le _ _ H E).
Qed.

(** The rational test is the test on the real square root. *)
Lemma Q_sqrt_lt_real (s e : Q) :
  (0 <= s)%Q ->
  (sqrt_lt (A := Q) s e = true <-> (R_sqrt.sqrt (Q2R s) < Q2R e)%R).
Proof.
  intros Hs. apply Qle_Rle in Hs. rewrite RMicromega.Q2R_0 in Hs.
  simpl. rewrite andb_true_iff, !Qltb_lt. split.
  - intros [He Hse]. apply Qlt_Rlt in He, Hse.
    rewrite RMicromega.Q2R_0 in He. rewrite Q2R_mult in Hse.
    rewrite <- (sqrt_square (Q2R e)) by (apply Rlt_le; exact He).
    apply sqrt_lt_1_alt. split; assumption.
  - intros H. pose proof (sqrt_pos (Q2R s)) as Hp.
    assert (He : (0 < Q2R e)%R) by Lra.lra.
    split.
    + apply Rlt_Qlt. rewrite RMicromega.Q2R_0. exact He.
    + apply Rlt_Qlt. rewrite Q2R_mult.
      rewrite <- (sqrt_sqrt (Q2R s)) by exact Hs.
      apply Rmult_le_0_lt_compat; assumption.
Qed.

(** ** Lemmas on the loop *)

Section Properties.

Context {A : Type} {arith : Arith A}.
Variable gauss : nat -> A.
Variable self : GradientDescent (callable A).
Variables lr eps : A.

Lemma promote_eq (v : value A) :
  (if isinstance_ndarray v then v else np_array1 v) = np_array1 v.
Proof. destruct v; reflexivity. Qed.

Lemma last_cons {T : Type} (l : list T) : forall a d : T,
  last (a :: l) d = last l a.
Proof.
  induction l as [|b l IH]; intros a d; [reflexivity|].
  change (last (a :: b :: l) d) with (last (b :: l) d).
  rewrite (IH b d), (IH b a). reflexivity.
Qed.

Lemma last_point_cons (x : value A) (r : hist A) (h : list (hist A)) :
  last_point x (r :: h) = last_point (hist_x r) h.
Proof. unfold last_point. simpl map. apply last_cons. Qed.

(** Unfolding of one iteration of the loop. *)
Lemma loop_S (n i : nat) (x : value A) (history : list (hist A)) (w : world) :
  loop self lr eps (S n) i x history w =
  match _get_gradient self x with
  | Raise e => (Raise e, w)
  | Ok grad =>
      let delta := np_array1 (float_mul lr grad) in
      if norm_lt delta eps
      then (Ok (x, history, true),
            mkWorld (rng_pos w) (stdout w ++ [converged_line i]))
      else match value_sub (np_array1 x) delta with
           | Raise e => (Raise e, w)
           | Ok x' => loop self lr eps n (S i) x' (history ++ [mkHist x' grad]) w
           end
  end.
Proof.
  simpl. unfold bind, lift.
  destruct (_get_gradient self x) as [grad|e]; [|reflexivity].
  rewrite !promote_eq. cbv zeta.
  destruct (norm_lt (np_array1 (float_mul lr grad)) eps); [reflexivity|].
  destruct (value_sub (np_array1 x) (np_array1 (float_mul lr grad)));
    reflexivity.
Qed.

Lemma loop_sound (n : nat) : forall i x history w,
  loop_post self lr eps n i x history w (loop self lr eps n i x history w).
Proof.
  induction n as [|n IH]; intros i x history w.
  - split; [reflexivity|]. simpl. exists []. rewrite app_nil_r.
    repeat split.
  - rewrite loop_S.
    destruct (_get_gradient self x) as [grad|e] eqn:Hg; [|split; reflexivity].
    cbv zeta.
    destruct (norm_lt (np_array1 (float_mul lr grad)) eps) eqn:Hn.
    + split; [reflexivity|]. simpl. exists []. rewrite app_nil_r, Nat.add_0_r.
      split; [reflexivity|]. split; [exact I|]. split; [reflexivity|].
      split; [simpl; lia|]. split; [reflexivity|].
      exists grad. split; assumption.
    + destruct (value_sub (np_array1 x) (np_array1 (float_mul lr grad)))
        as [x'|e] eqn:Hs; [|split; reflexivity].
      specialize (IH (S i) x' (history ++ [mkHist x' grad]) w).
      destruct IH as [Hr IH]. split; [exact Hr|].
      destruct (fst (loop self lr eps n (S i) x' (history ++ [mkHist x' grad]) w))
        as [[[xf hf] c]|e]; [|exact IH].
      destruct IH as (t & Hh & Ha & Hx & Hc).
      exists (mkHist x' grad :: t). split; [|split; [|split]].
      * rewrite Hh, <- app_assoc. reflexivity.
      * simpl. repeat split; assumption.
      * rewrite last_point_cons. exact Hx.
      * destruct c; simpl List.length.
        -- destruct Hc as (Hl & Ho & Hg'). split; [lia|]. split; [|exact Hg'].
           rewrite Ho. do 3 f_equal. lia.
        -- destruct Hc as (Hl & Ho). split; [lia|exact Ho].
Qed.

Lemma after_draw_rng (start : option (value A)) shape w :
  rng_pos (after_draw start shape w) = rng_pos w + draws start shape.
Proof. destruct start; simpl; [lia|reflexivity]. Qed.

Lemma after_draw_stdout (start : option (value A)) shape w :
  stdout (after_draw start shape w) = stdout w.
Proof. destruct start; reflexivity. Qed.

(** [optimize] is the loop run from the initial point, then the final print. *)
Lemma optimize_unfold start max_iter shape w :
  optimize gauss self lr eps start max_iter shape w =
  match loop self lr eps (Z.to_nat max_iter) 0
          (initial_point gauss start shape w) [] (after_draw start shape w) with
  | (Ok (x, h, true), w1) => (Ok (x, h), w1)
  | (Ok (x, h, false), w1) =>
      (Ok (x, h),
       mkWorld (rng_pos w1) (stdout w1 ++ [not_converged_line max_iter]))
  | (Raise e, w1) => (Raise e, w1)
  end.
Proof.
  unfold optimize, bind.
  destruct start as [s|]; [|destruct shape as [m|]]; simpl;
    match goal with
    | |- context [loop self lr eps ?n ?i ?x ?h ?w0] =>
        destruct (loop self lr eps n i x h w0) as [[[[xf hf] [|]]|e] w1]
    end; reflexivity.
Qed.

Lemma optimize_sound start max_iter shape w :
  optimize_post gauss self lr eps start max_iter shape w
    (optimize gauss self lr eps start max_iter shape w).
Proof.
  rewrite optimize_unfold.
  pose proof (loop_sound (Z.to_nat max_iter) 0
                (initial_point gauss start shape w) []
                (after_draw start shape w)) as [Hr Hl].
  rewrite after_draw_rng in Hr. rewrite after_draw_stdout in Hl.
  destruct (loop self lr eps (Z.to_nat max_iter) 0
              (initial_point gauss start shape w) []
              (after_draw start shape w)) as [[[[xf hf] c]|e] w1];
    simpl in Hr, Hl.
  - destruct Hl as (t & Hh & Ha & Hx & Hc). simpl in Hh. subst hf.
    destruct c.
    + destruct Hc as (Hlen & Ho & Hg). split; [exact Hr|]. simpl.
      split; [exact Ha|]. split; [exact Hx|]. left.
      split; [exact Hlen|]. split; [exact Ho|exact Hg].
    + destruct Hc as (Hlen & Ho). split; [exact Hr|]. simpl.
      split; [exact Ha|]. split; [exact Hx|]. right.
      split; [exact Hlen|]. rewrite Ho. reflexivity.
  - split; [exact Hr|exact Hl].
Qed.

(** *** Runs that raise nothing *)

Section Invariant.

Variable P : value A -> Prop.

Lemma loop_returns (Hsafe : steps_safely self lr eps P) (n : nat) : forall i x history w,
  P x -> exists r w', loop self lr eps n i x history w = (Ok r, w').
Proof.
  induction n as [|n IH]; intros i x history w Hx.
  - eexists; eexists; reflexivity.
  - rewrite loop_S. destruct (Hsafe _ Hx) as (g & Hg & [Hn|(x' & Hs & Hx')]).
    + rewrite Hg. cbv zeta. rewrite Hn. eexists; eexists; reflexivity.
    + rewrite Hg. cbv zeta.
      destruct (norm_lt (np_array1 (float_mul lr g)) eps).
      * eexists; eexists; reflexivity.
      * rewrite Hs. apply IH. exact Hx'.
Qed.

Lemma loop_exhausts (Hnever : never_converges self lr eps P) (n : nat) :
  forall i x history w,
  P x -> exists xf hf,
    loop self lr eps n i x history w = (Ok (xf, hf, false), w)
    /\ List.length hf = List.length history + n.
Proof.
  induction n as [|n IH]; intros i x history w Hx.
  - exists x, history. split; [reflexivity|lia].
  - rewrite loop_S. destruct (Hnever _ Hx) as (g & x' & Hg & Hn & Hs & Hx').
    rewrite Hg. cbv zeta. rewrite Hn, Hs.
    destruct (IH (S i) x' (history ++ [mkHist x' g]) w Hx')
      as (xf & hf & Hl & Hlen).
    exists xf, hf. split; [exact Hl|].
    rewrite Hlen, length_app. simpl. lia.
Qed.

Lemma optimize_returns (Hsafe : steps_safely self lr eps P) start max_iter shape w :
  P (initial_point gauss start shape w) ->
  exists xf h w',
    optimize gauss self lr eps start max_iter shape w = (Ok (xf, h), w').
Proof.
  intros HP.
  destruct (loop_returns Hsafe (Z.to_nat max_iter) 0 []
              (after_draw start shape w) HP) as ([[xf hf] c] & w1 & Hl).
  pose proof (optimize_unfold start max_iter shape w) as Hu.
  rewrite Hl in Hu. exists xf, hf. destruct c; eexists; exact Hu.
Qed.

End Invariant.

End Properties.

(** ** Lemmas on values and histories *)

Section ValueLemmas.

Context {A : Type} {arith : Arith A}.

Lemma np_array1_is_array (v : value A) : isinstance_ndarray (np_array1 v) = true.
Proof. destruct v; reflexivity. Qed.

(** Subtracting two arrays gives an array. *)
Lemma value_sub_arrays (u v x : value A) :
  value_sub (np_array1 u) (np_array1 v) = Ok x -> np_array1 x = x.
Proof.
  assert (Harr : forall l1 l2, value_sub (Array l1) (Array l2) = Ok x ->
                               np_array1 x = x).
  { intros l1 l2. unfold value_sub.
    destruct (Nat.eqb (List.length l1) (List.length l2)).
    - intros H; inversion H; reflexivity.
    - destruct l1 as [|a [|a' l1]], l2 as [|b [|b' l2]];
        intros H; inversion H; reflexivity. }
  destruct u as [a|l1], v as [b|l2]; apply Harr.
Qed.

(** Broadcasting: a scalar step and its promotion subtract alike. *)
Lemma value_sub_promote_r (l : list A) (d : value A) :
  value_sub (Array l) (np_array1 d) = value_sub (Array l) d.
Proof.
  destruct d as [b|l2]; [|reflexivity]. simpl.
  destruct l as [|a [|a' l]]; reflexivity.
Qed.

Lemma zip_sub_map {T : Type} (f g : T -> A) (l : list T) :
  zip_sub (map f l) (map g l) = map (fun a => sub (f a) (g a)) l.
Proof.
  induction l as [|a l IH]; simpl; [reflexivity|]. rewrite IH. reflexivity.
Qed.

Lemma converged_not_not_converged (i : nat) (m : Z) :
  converged_line i <> not_converged_line m.
Proof. unfold converged_line, not_converged_line. simpl. discriminate. Qed.

Variable self : GradientDescent (callable A).
Variables lr eps : A.

(** Consecutive records of a history of applied updates. *)
Lemma applied_updates_nth (h : list (hist A)) : forall x k r1 r2,
  applied_updates self lr eps x h ->
  nth_error h k = Some r1 -> nth_error h (S k) = Some r2 ->
  _get_gradient self (hist_x r1) = Ok (hist_grad r2)
  /\ norm_lt (np_array1 (float_mul lr (hist_grad r2))) eps = false
  /\ value_sub (np_array1 (hist_x r1)) (np_array1 (float_mul lr (hist_grad r2)))
     = Ok (hist_x r2).
Proof.
  induction h as [|r h IH]; intros x k r1 r2 Ha H1 H2.
  - destruct k; discriminate.
  - destruct Ha as (_ & _ & _ & Ha). destruct k as [|k].
    + simpl in H1. inversion H1; subst r1. simpl in H2.
      destruct h as [|r' h]; [discriminate|]. simpl in H2.
      inversion H2; subst r'. destruct Ha as (Hg & Hn & Hs & _).
      repeat split; assumption.
    + simpl in H1. apply (IH (hist_x r) k r1 r2 Ha H1 H2).
Qed.

(** Every recorded point is an array. *)
Lemma applied_updates_arrays (h : list (hist A)) : forall x r,
  applied_updates self lr eps x h -> In r h -> np_array1 (hist_x r) = hist_x r.
Proof.
  induction h as [|r0 h IH]; intros x r Ha Hin; [contradiction|].
  destruct Ha as (_ & _ & Hs & Ha). destruct Hin as [->|Hin].
  - apply (value_sub_arrays _ _ Hs).
  - apply (IH _ _ Ha Hin).
Qed.

Lemma last_point_snoc (x : value A) (h : list (hist A)) (r : hist A) :
  last_point x (h ++ [r]) = hist_x r.
Proof. unfold last_point. rewrite map_app. simpl. apply last_last. Qed.

End ValueLemmas.

(** *** Scalar mode *)

Section ScalarMode.

Context {A : Type} {arith : Arith A}.
Variable self : GradientDescent (callable A).
Variables lr eps : A.

Lemma step_single (x g x' : value A) :
  single x -> single g ->
  value_sub (np_array1 x) (np_array1 (float_mul lr g)) = Ok x' ->
  exists b, x' = Array [b].
Proof.
  unfold single. intros Hx Hg Hs.
  destruct x as [a|[|a [|a' l]]], g as [d|[|d [|d' l']]];
    simpl in Hx, Hg, Hs; try discriminate;
    inversion Hs; eexists; reflexivity.
Qed.


Lemma applied_single (Hmode : scalar_mode self) (h : list (hist A)) :
  forall x, single x -> applied_updates self lr eps x h -> h <> [] ->
  exists b, last_point x h = Array [b].
Proof.
  induction h as [|r h IH]; intros x Hx Ha Hne; [contradiction|].
  destruct Ha as (Hg & _ & Hs & Ha).
  destruct (step_single Hx (Hmode _ _ Hx Hg) Hs) as [b Hb].
  rewrite last_point_cons. destruct h as [|r' h].
  - exists b. unfold last_point. simpl. exact Hb.
  - apply IH; [rewrite Hb; reflexivity|exact Ha|discriminate].
Qed.

End ScalarMode.

(** *** The objective [x^2] in exact arithmetic *)

Section ExactSquare.

Local Open Scope Q_scope.

Lemma fd_square_exact (q : Q) : fd_square q == 2 * q.
Proof. unfold fd_square. simpl. field. Qed.


Variable self : GradientDescent (callable Q).
Hypothesis Hself : square_optimizer self.
Variables lr eps : Q.

(** At a one-entry point [q] the step is [lr * c] for a [c] equal to [2 q]. *)
Lemma square_step (x : value Q) (q : Q) :
  np_array1 x = Array [q] ->
  exists g c, _get_gradient self x = Ok g
    /\ np_array1 (float_mul lr g) = Array [lr * c]
    /\ c == 2 * q.
Proof.
  intros Hx. destruct Hself as [->|[f ->]].
  - destruct x as [a|[|a [|a' l]]]; inversion Hx; subst a.
    + exists (Scalar (fd_square q)), (fd_square q).
      repeat split. apply fd_square_exact.
    + exists (Array [fd_square q]), (fd_square q).
      repeat split. apply fd_square_exact.
  - destruct x as [a|[|a [|a' l]]]; inversion Hx; subst a.
    + exists (Scalar (2 * q)), (2 * q). repeat split.
    + exists (Array [2 * q]), (2 * q). repeat split.
Qed.

Lemma square_scalar_mode : scalar_mode self.
Proof.
  intros v g Hv Hg.
  assert (Hq : exists q, np_array1 v = Array [q]).
  { destruct v as [a|[|a [|a' l]]]; try discriminate; eexists; reflexivity. }
  destruct Hq as [q Hq]. destruct (square_step _ Hq) as (g' & c & Hg' & Hd & _).
  rewrite Hg in Hg'. inversion Hg'; subst g'.
  destruct g as [d|[|d [|d' l]]]; try discriminate; reflexivity.
Qed.

(** The run never raises: one-entry points are stepped to one-entry points. *)
Lemma square_steps_safely : steps_safely self lr eps single.
Proof.
  intros v Hv.
  assert (Hq : exists q, np_array1 v = Array [q]).
  { destruct v as [a|[|a [|a' l]]]; try discriminate; eexists; reflexivity. }
  destruct Hq as [q Hq]. destruct (square_step _ Hq) as (g & c & Hg & Hd & _).
  exists g. split; [exact Hg|]. right. rewrite Hq, Hd.
  eexists. split; reflexivity.
Qed.


End ExactSquare.

(** ** Lemmas on the sample runs *)

Lemma constant_slope_never_converges :
  never_converges constant_slope 1%Q (1 # 2)%Q single.
Proof.
  intros v Hv. exists (Scalar 1%Q).
  destruct v as [a|[|a [|a' l]]]; try discriminate;
    eexists; repeat split.
Qed.

Lemma descent_2x_square : square_optimizer descent_2x.
Proof. right. exists None. reflexivity. Qed.

(** ** Lemmas on single steps and single runs *)

Section StepLemmas.

Context {A : Type} {arith : Arith A}.

Lemma add_float_vmap (x : value A) (e : A) :
  add_float x e = vmap (fun a => add a e) x.
Proof. destruct x; reflexivity. Qed.

Lemma sub_float_vmap (x : value A) (e : A) :
  sub_float x e = vmap (fun a => sub a e) x.
Proof. destruct x; reflexivity. Qed.

Lemma zip_sub_combine (l1 : list A) : forall l2,
  zip_sub l1 l2 = map (fun p => sub (fst p) (snd p)) (combine l1 l2).
Proof.
  induction l1 as [|a l1 IH]; intros [|b l2]; simpl; try reflexivity.
  rewrite IH. reflexivity.
Qed.

Lemma combine_map_r {T : Type} (f : T -> A) (l1 : list A) : forall l2,
  combine l1 (map f l2) = map (fun p => (fst p, f (snd p))) (combine l1 l2).
Proof.
  induction l1 as [|a l1 IH]; intros [|b l2]; simpl; try reflexivity.
  rewrite IH. reflexivity.
Qed.

(** The array subtraction of the loop, entry by entry. *)
Lemma value_sub_steps (lr : A) (x g x' : value A) :
  value_sub (np_array1 x) (np_array1 (float_mul lr g)) = Ok x' ->
  steps_to lr (match x with Scalar a => [a] | Array l => l end) g x'.
Proof.
  assert (Hx : np_array1 x
               = Array (match x with Scalar a => [a] | Array l => l end))
    by (destruct x; reflexivity).
  assert (Hg : np_array1 (float_mul lr g)
               = Array (map (mul lr)
                          (match g with Scalar d => [d] | Array ds => ds end)))
    by (destruct g; reflexivity).
  rewrite Hx, Hg. clear Hx Hg. unfold steps_to. cbv zeta.
  generalize (match x with Scalar a => [a] | Array l => l end).
  generalize (match g with Scalar d => [d] | Array ds => ds end).
  intros gs l Hs. unfold value_sub in Hs.
  rewrite length_map in Hs.
  destruct (Nat.eqb (List.length l) (List.length gs)) eqn:Hlen.
  - apply Nat.eqb_eq in Hlen. inversion Hs; subst x'. clear Hs.
    assert (Hzip : zip_sub l (map (mul lr) gs)
                   = map (fun p => sub (fst p) (mul lr (snd p)))
                       (combine l gs)).
    { rewrite zip_sub_combine, combine_map_r, map_map. reflexivity. }
    split; [left; exact Hlen|]. split; [intros _; rewrite Hzip; reflexivity|].
    split.
    + intros d ->. destruct l as [|a [|a' l]]; try discriminate. reflexivity.
    + intros a ->. destruct gs as [|d [|d' gs]]; try discriminate.
      reflexivity.
  - apply Nat.eqb_neq in Hlen.
    destruct l as [|a [|a' l]], gs as [|d [|d' gs]];
      simpl in Hs, Hlen; try discriminate; try (exfalso; lia);
      inversion Hs; subst x'; clear Hs;
      (split; [simpl; auto|]);
      (split; [intros Heq; simpl in Heq; exfalso; lia|]);
      (split; [intros d0 Hd; inversion Hd; subst; reflexivity
              |intros a0 Ha; inversion Ha; subst; simpl;
               rewrite ?map_map; reflexivity]).
Qed.

Variable self : GradientDescent (callable A).
Variables lr eps : A.

(** A run whose first [n] steps do not pass the test uses its budget up. *)
Lemma loop_unconverged (n : nat) : forall i x history w,
  runs_unconverged self lr eps n x ->
  exists xf hf,
    loop self lr eps n i x history w = (Ok (xf, hf, false), w)
    /\ List.length hf = List.length history + n.
Proof.
  induction n as [|n IH]; intros i x history w Hrun.
  - exists x, history. split; [reflexivity|lia].
  - destruct Hrun as (g & x' & Hg & Hn & Hs & Hrun).
    rewrite loop_S, Hg. cbv zeta. rewrite Hn, Hs.
    destruct (IH (S i) x' (history ++ [mkHist x' g]) w Hrun)
      as (xf & hf & Hl & Hlen).
    exists xf, hf. split; [exact Hl|].
    rewrite Hlen, length_app. simpl. lia.
Qed.

(** And a loop that used its budget up is such a run. *)
Lemma loop_unconverged_inv (n : nat) : forall i x history w xf hf w',
  loop self lr eps n i x history w = (Ok (xf, hf, false), w') ->
  runs_unconverged self lr eps n x.
Proof.
  induction n as [|n IH]; intros i x history w xf hf w' Hl; [exact I|].
  rewrite loop_S in Hl.
  destruct (_get_gradient self x) as [g|e] eqn:Hg; [|discriminate].
  cbv zeta in Hl.
  destruct (norm_lt (np_array1 (float_mul lr g)) eps) eqn:Hn;
    [discriminate|].
  destruct (value_sub (np_array1 x) (np_array1 (float_mul lr g)))
    as [x'|e] eqn:Hs; [|discriminate].
  exists g, x'. repeat split; try assumption.
  apply (IH _ _ _ _ _ _ _ Hl).
Qed.

(** Points that never converge give runs that do not, for every budget. *)
Lemma never_converges_runs (P : value A -> Prop) (n : nat) : forall x,
  never_converges self lr eps P -> P x -> runs_unconverged self lr eps n x.
Proof.
  induction n as [|n IH]; intros x Hnever Hx; [exact I|].
  destruct (Hnever x Hx) as (g & x' & Hg & Hn & Hs & Hx').
  exists g, x'. repeat split; try assumption. apply IH; assumption.
Qed.

End StepLemmas.


(** ** The claims *)

(** C1.  In every iteration of the loop the gradient is acquired at the
    current [x] and [delta = lr * gradient] (promoted to an array) is formed.
    If the norm of [delta] is strictly below [eps], the loop stops at once:
    [x] and [history] are returned as they were.  Otherwise the iteration
    continues from [x - delta] with the record [{x - delta, gradient}]
    appended.  Consequently, in every returning call the history is exactly
    the chain of applied updates from the initial point, the returned point
    is the last one reached, and after a convergence break the step at the
    returned point is one that passes the test (it was not applied). *)
Theorem C1_iteration_breaks_or_updates :
  forall (A : Type) (arith : Arith A) (gauss : nat -> A)
         (self : GradientDescent (callable A)) (lr eps : A),
  (forall n i x history w grad,
      _get_gradient self x = Ok grad ->
      (norm_lt (np_array1 (float_mul lr grad)) eps = true ->
       loop self lr eps (S n) i x history w
       = (Ok (x, history, true),
          mkWorld (rng_pos w) (stdout w ++ [converged_line i])))
      /\ (forall x',
            norm_lt (np_array1 (float_mul lr grad)) eps = false ->
            value_sub (np_array1 x) (np_array1 (float_mul lr grad)) = Ok x' ->
            loop self lr eps (S n) i x history w
            = loop self lr eps n (S i) x' (history ++ [mkHist x' grad]) w))
  /\ (forall start max_iter shape w xf h w',
        optimize gauss self lr eps start max_iter shape w = (Ok (xf, h), w') ->
        applied_updates self lr eps (initial_point gauss start shape w) h
        /\ xf = last_point (initial_point gauss start shape w) h
        /\ (forall i, stdout w' = stdout w ++ [converged_line i] ->
            exists g, _get_gradient self xf = Ok g
              /\ norm_lt (np_array1 (float_mul lr g)) eps = true)).
Proof.
  intros A arith gauss self lr eps. split.
  - intros n i x history w grad Hg. split.
    + intros Hn. rewrite loop_S, Hg. cbv zeta. rewrite Hn. reflexivity.
    + intros x' Hn Hs. rewrite loop_S, Hg. cbv zeta. rewrite Hn, Hs.
      reflexivity.
  - intros start max_iter shape w xf h w' Hopt.
    pose proof (optimize_sound gauss self lr eps start max_iter shape w)
      as [_ Hpost].
    rewrite Hopt in Hpost. simpl in Hpost.
    destruct Hpost as (Ha & Hx & Hend). split; [exact Ha|]. split; [exact Hx|].
    intros i Hi. destruct Hend as [(_ & _ & Hg)|(_ & Ho)]; [exact Hg|].
    rewrite Hi in Ho. apply app_inj_tail in Ho. destruct Ho as [_ Ho].
    exfalso. exact (converged_not_not_converged Ho).
Qed.

(** C2.  For an optimizer constructed with a gradient function, gradient
    acquisition returns [grad_func(x)] at every point.  Constructed with the
    objective alone it returns, at every point [x], scalar or vector, the
    central difference [(func(x + 1e-5) - func(x - 1e-5)) / (2 * 1e-5)],
    where [x + 1e-5] and [x - 1e-5] perturb every entry of [x]: the quotient
    of the two values when they are scalars, the quotients entry by entry
    when they are arrays of one length, a scalar or a one-element array
    stretched over the other operand, and a [ValueError] for arrays of other
    lengths.  An exception of the objective is propagated.  For an objective
    acting entry by entry the result is the quotient taken entry by entry,
    on a scalar and on a vector alike. *)
Theorem C2_gradient_acquisition :
  forall (A : Type) (arith : Arith A),
  (forall f g (self : GradientDescent (callable A)) x,
      __init__ f (Some g) = Ok self -> _get_gradient self x = g x)
  /\ (forall f (self : GradientDescent (callable A)) x fp fm,
        __init__ (Some f) None = Ok self ->
        f (vmap (fun a => add a fd_eps) x) = Ok fp ->
        f (vmap (fun a => sub a fd_eps) x) = Ok fm ->
        _get_gradient self x =
        match fp, fm with
        | Scalar u, Scalar v =>
            Ok (Scalar (div (sub u v) (mul two fd_eps)))
        | Scalar u, Array vs =>
            Ok (Array (map (fun v => div (sub u v) (mul two fd_eps)) vs))
        | Array us, Scalar v =>
            Ok (Array (map (fun u => div (sub u v) (mul two fd_eps)) us))
        | Array us, Array vs =>
            if Nat.eqb (List.length us) (List.length vs)
            then Ok (Array (map (fun p => div (sub (fst p) (snd p))
                                              (mul two fd_eps))
                              (combine us vs)))
            else match us, vs with
                 | [u], _ =>
                     Ok (Array (map (fun v => div (sub u v) (mul two fd_eps))
                                  vs))
                 | _, [v] =>
                     Ok (Array (map (fun u => div (sub u v) (mul two fd_eps))
                                  us))
                 | _, _ =>
                     Raise (ValueError
                              (broadcast_message (List.length us)
                                 (List.length vs)))
                 end
        end)
  /\ (forall f (self : GradientDescent (callable A)) x e,
        __init__ (Some f) None = Ok self ->
        (f (vmap (fun a => add a fd_eps) x) = Raise e
         \/ (exists fp, f (vmap (fun a => add a fd_eps) x) = Ok fp
                /\ f (vmap (fun a => sub a fd_eps) x) = Raise e)) ->
        _get_gradient self x = Raise e)
  /\ (forall (phi : A -> A) (self : GradientDescent (callable A)) x,
        __init__ (Some (fun v => Ok (vmap phi v))) None = Ok self ->
        _get_gradient self x
        = Ok (vmap (fun a => div (sub (phi (add a fd_eps)) (phi (sub a fd_eps)))
                                 (mul two fd_eps)) x))
  /\ fd_eps (A := float) = 1e-5%float
  /\ Qeq (fd_eps (A := Q)) (1 / 100000).
Proof.
  intros A arith. split; [|split; [|split; [|split; [|split]]]].
  - intros f g self x Hinit.
    assert (Hself : self = mkGD f (Some g)).
    { destruct f; simpl in Hinit; inversion Hinit; reflexivity. }
    subst self. reflexivity.
  - intros f self x fp fm Hinit Hp Hm. simpl in Hinit.
    inversion Hinit; subst self. unfold _get_gradient. simpl.
    rewrite add_float_vmap, sub_float_vmap, Hp, Hm.
    destruct fp as [u|us], fm as [v|vs]; simpl; try reflexivity.
    + rewrite map_map. reflexivity.
    + rewrite map_map. reflexivity.
    + destruct (Nat.eqb (List.length us) (List.length vs)).
      * simpl. rewrite zip_sub_combine, map_map. reflexivity.
      * destruct us as [|u [|u' us]], vs as [|v [|v' vs]]; simpl;
          rewrite ?map_map; reflexivity.
  - intros f self x e Hinit Hraise. simpl in Hinit.
    inversion Hinit; subst self. unfold _get_gradient. simpl.
    rewrite add_float_vmap, sub_float_vmap.
    destruct Hraise as [Hp|(fp & Hp & Hm)]; rewrite Hp; [reflexivity|].
    rewrite Hm. reflexivity.
  - intros phi self x Hinit. simpl in Hinit. inversion Hinit; subst self.
    unfold _get_gradient.
    destruct x as [a|l]; simpl; [reflexivity|].
    rewrite !length_map, Nat.eqb_refl, !map_map, zip_sub_map.
    unfold div_float. rewrite map_map. reflexivity.
  - reflexivity.
  - reflexivity.
Qed.

(** C3.  Construction fails exactly when both the objective and the gradient
    function are absent, and it fails then and there, with a [ValueError];
    with at least one of them present it succeeds and stores both references
    as given.  The constructor is parametric in the type of the references:
    it cannot evaluate them. *)
Theorem C3_construction :
  forall (F : Type) (func grad_func : option F),
  (func = None /\ grad_func = None ->
   __init__ func grad_func
   = Raise (ValueError "Either func or grad_func must be provided"))
  /\ (func <> None \/ grad_func <> None ->
      __init__ func grad_func = Ok (mkGD func grad_func))
  /\ ((exists e, __init__ func grad_func = Raise e)
      <-> func = None /\ grad_func = None).
Proof.
  intros F f g. split; [|split].
  - intros [-> ->]. reflexivity.
  - intros [H|H]; destruct f, g; try reflexivity; contradiction.
  - split.
    + intros [e He]. destruct f, g; try discriminate. split; reflexivity.
    + intros [-> ->]. eexists. reflexivity.
Qed.

(** C4.  Running out of iterations is no error.  When [max_iter] is
    positive and, in each of the [max_iter] iterations the call runs, the
    step does not pass the convergence test, the call returns with a history
    of exactly [max_iter] records and prints "Not converged"; and a call
    that returned with "Not converged" is such a run.  A call that printed
    "Converged" returns a history strictly shorter than [max_iter].  With
    [max_iter = 1] and a first step not passing the test the history has
    exactly one record. *)
Theorem C4_non_convergence_returns :
  forall (A : Type) (arith : Arith A) (gauss : nat -> A)
         (self : GradientDescent (callable A)) (lr eps : A) start shape w,
  (forall max_iter,
      (0 < max_iter)%Z ->
      runs_unconverged self lr eps (Z.to_nat max_iter)
        (initial_point gauss start shape w) ->
      exists xf h w',
        optimize gauss self lr eps start max_iter shape w = (Ok (xf, h), w')
        /\ Z.of_nat (List.length h) = max_iter
        /\ stdout w' = stdout w ++ [not_converged_line max_iter])
  /\ (forall max_iter xf h w',
        optimize gauss self lr eps start max_iter shape w = (Ok (xf, h), w') ->
        stdout w' = stdout w ++ [not_converged_line max_iter] ->
        runs_unconverged self lr eps (Z.to_nat max_iter)
          (initial_point gauss start shape w)
        /\ List.length h = Z.to_nat max_iter)
  /\ (forall max_iter xf h w' i,
        optimize gauss self lr eps start max_iter shape w = (Ok (xf, h), w') ->
        stdout w' = stdout w ++ [converged_line i] ->
        (Z.of_nat (List.length h) < max_iter)%Z)
  /\ (runs_unconverged self lr eps 1 (initial_point gauss start shape w) ->
      exists xf r w',
        optimize gauss self lr eps start 1 shape w = (Ok (xf, [r]), w')
        /\ stdout w' = stdout w ++ [not_converged_line 1]).
Proof.
  intros A arith gauss self lr eps start shape w.
  assert (Hfull : forall max_iter,
             runs_unconverged self lr eps (Z.to_nat max_iter)
               (initial_point gauss start shape w) ->
             exists xf h w',
               optimize gauss self lr eps start max_iter shape w
               = (Ok (xf, h), w')
               /\ List.length h = Z.to_nat max_iter
               /\ stdout w' = stdout w ++ [not_converged_line max_iter]).
  { intros max_iter Hrun. rewrite optimize_unfold.
    destruct (loop_unconverged self lr eps (Z.to_nat max_iter) 0 _ []
                (after_draw start shape w) Hrun) as (xf & hf & Hl & Hlen).
    rewrite Hl. exists xf, hf. eexists. split; [reflexivity|].
    split; [exact Hlen|]. simpl. rewrite after_draw_stdout. reflexivity. }
  split; [|split; [|split]].
  - intros max_iter Hpos Hrun.
    destruct (Hfull max_iter Hrun) as (xf & h & w' & Ho & Hlen & Hout).
    exists xf, h, w'. split; [exact Ho|]. split; [lia|exact Hout].
  - intros max_iter xf h w' Hopt Hout.
    pose proof (optimize_sound gauss self lr eps start max_iter shape w)
      as [_ Hpost].
    rewrite Hopt in Hpost. simpl in Hpost. destruct Hpost as (_ & _ & Hend).
    rewrite optimize_unfold in Hopt.
    pose proof (loop_sound self lr eps (Z.to_nat max_iter) 0
                  (initial_point gauss start shape w) []
                  (after_draw start shape w)) as [_ Hp].
    destruct (loop self lr eps (Z.to_nat max_iter) 0
                (initial_point gauss start shape w) []
                (after_draw start shape w))
      as [[[[x1 h1] c]|e] w1] eqn:Hl; [|discriminate].
    simpl in Hp. destruct Hp as (t & _ & _ & _ & Hc). destruct c.
    + inversion Hopt; subst. destruct Hc as (_ & Ho & _).
      rewrite after_draw_stdout, Hout in Ho.
      apply app_inj_tail in Ho. destruct Ho as [_ Ho]. symmetry in Ho.
      exfalso. exact (converged_not_not_converged Ho).
    + inversion Hopt; subst. split.
      * eapply loop_unconverged_inv. exact Hl.
      * destruct Hend as [(_ & Ho & _)|(Hlen & _)]; [|exact Hlen].
        rewrite Hout in Ho. apply app_inj_tail in Ho. destruct Ho as [_ Ho].
        symmetry in Ho. exfalso. exact (converged_not_not_converged Ho).
  - intros max_iter xf h w' i Hopt Hi.
    pose proof (optimize_sound gauss self lr eps start max_iter shape w)
      as [_ Hpost].
    rewrite Hopt in Hpost. simpl in Hpost. destruct Hpost as (_ & _ & Hend).
    destruct Hend as [(Hlen & _)|(_ & Ho)]; [lia|].
    rewrite Hi in Ho. apply app_inj_tail in Ho. destruct Ho as [_ Ho].
    exfalso. exact (converged_not_not_converged Ho).
  - intros Hrun.
    destruct (Hfull 1%Z Hrun) as (xf & h & w' & Ho & Hlen & Hout).
    destruct h as [|r [|r' h]]; try discriminate.
    exists xf, r, w'. split; assumption.
Qed.

(** C5.  [optimize] is a total function: every call ends.  With a positive
    [max_iter] and no exception raised by the callables or by the array
    subtraction, the call returns a pair (point, history) after at most
    [max_iter] iterations: either by the convergence break, having applied
    fewer than [max_iter] updates, or with the budget of [max_iter] used up.
    In any case a call ends in one of three ways: break, exhaustion, or a
    propagated exception. *)
Theorem C5_optimize_returns :
  forall (A : Type) (arith : Arith A) (gauss : nat -> A)
         (self : GradientDescent (callable A)) (lr eps : A)
         start max_iter shape w,
  (forall (P : value A -> Prop),
      (0 < max_iter)%Z ->
      steps_safely self lr eps P ->
      P (initial_point gauss start shape w) ->
      exists xf h w',
        optimize gauss self lr eps start max_iter shape w = (Ok (xf, h), w')
        /\ (Z.of_nat (List.length h) <= max_iter)%Z
        /\ ending self lr eps max_iter w w' xf h)
  /\ ((exists e w', optimize gauss self lr eps start max_iter shape w
                    = (Raise e, w'))
      \/ (exists xf h w',
             optimize gauss self lr eps start max_iter shape w
             = (Ok (xf, h), w')
             /\ List.length h <= Z.to_nat max_iter
             /\ ending self lr eps max_iter w w' xf h)).
Proof.
  intros A arith gauss self lr eps start max_iter shape w.
  assert (Hshape : forall xf h w',
             optimize gauss self lr eps start max_iter shape w
             = (Ok (xf, h), w') ->
             List.length h <= Z.to_nat max_iter
             /\ ending self lr eps max_iter w w' xf h).
  { intros xf h w' Hopt.
    pose proof (optimize_sound gauss self lr eps start max_iter shape w)
      as [_ Hpost].
    rewrite Hopt in Hpost. simpl in Hpost. destruct Hpost as (_ & _ & Hend).
    split; [|exact Hend]. destruct Hend as [(Hlen & _)|(Hlen & _)]; lia. }
  split.
  - intros P Hpos Hsafe HP.
    destruct (optimize_returns gauss Hsafe start max_iter shape w HP)
      as (xf & h & w' & Hopt).
    exists xf, h, w'. split; [exact Hopt|].
    destruct (Hshape _ _ _ Hopt) as [Hlen Hend]. split; [lia|exact Hend].
  - destruct (optimize gauss self lr eps start max_iter shape w)
      as [[[xf h]|e] w'] eqn:Hopt.
    + right. exists xf, h, w'. split; [reflexivity|]. apply Hshape.
      reflexivity.
    + left. exists e, w'. reflexivity.
Qed.

(** C6.  With a bare scalar start the representation of the returned point
    depends on the path taken.  If the step of the very first iteration
    passes the convergence test, the start is returned as it is, a scalar,
    with an empty history.  Once an update has been applied the returned
    point is an array, and a single-element one when gradients of one-entry
    points have one entry. *)
Theorem C6_scalar_or_array :
  forall (A : Type) (arith : Arith A) (gauss : nat -> A)
         (self : GradientDescent (callable A)) (lr eps : A)
         (a : A) max_iter shape w,
  (forall g,
      (0 < max_iter)%Z ->
      _get_gradient self (Scalar a) = Ok g ->
      norm_lt (np_array1 (float_mul lr g)) eps = true ->
      optimize gauss self lr eps (Some (Scalar a)) max_iter shape w
      = (Ok (Scalar a, []),
         mkWorld (rng_pos w) (stdout w ++ [converged_line 0])))
  /\ (forall xf h w',
        optimize gauss self lr eps (Some (Scalar a)) max_iter shape w
        = (Ok (xf, h), w') ->
        h <> [] ->
        isinstance_ndarray xf = true
        /\ (scalar_mode self -> exists b, xf = Array [b])).
Proof.
  intros A arith gauss self lr eps a max_iter shape w. split.
  - intros g Hpos Hg Hn. rewrite optimize_unfold. simpl initial_point.
    simpl after_draw. destruct (Z.to_nat max_iter) as [|n] eqn:Hm; [lia|].
    rewrite loop_S, Hg. cbv zeta. rewrite Hn. reflexivity.
  - intros xf h w' Hopt Hne.
    pose proof (optimize_sound gauss self lr eps (Some (Scalar a))
                  max_iter shape w) as [_ Hpost].
    rewrite Hopt in Hpost. simpl in Hpost. destruct Hpost as (Ha & Hx & _).
    split.
    + destruct (exists_last Hne) as (h0 & r & ->).
      rewrite last_point_snoc in Hx. subst xf.
      erewrite <- applied_updates_arrays;
        [apply np_array1_is_array|exact Ha|].
      apply in_or_app. right. left. reflexivity.
    + intros Hmode. rewrite Hx.
      eapply applied_single; [exact Hmode|reflexivity|exact Ha|exact Hne].
Qed.

(** C7, as amended.  On standard output a call writes exactly one status
    line when it returns and nothing when an exception propagates.  The
    process-wide random generator is advanced by the number of values drawn
    for the initial point: by none when a start is given, which leaves the
    generator untouched, by [n] for a shape [(n,)], by one otherwise.  (The
    statement is about these two channels; NumPy's warnings on standard
    error are outside it.) *)
Theorem C7_effects_of_a_call :
  forall (A : Type) (arith : Arith A) (gauss : nat -> A)
         (self : GradientDescent (callable A)) (lr eps : A)
         start max_iter shape w,
  rng_pos (snd (optimize gauss self lr eps start max_iter shape w))
  = rng_pos w + draws start shape
  /\ match start with
     | Some _ =>
         rng_pos (snd (optimize gauss self lr eps start max_iter shape w))
         = rng_pos w
     | None => True
     end
  /\ match fst (optimize gauss self lr eps start max_iter shape w) with
     | Ok (xf, h) =>
         stdout (snd (optimize gauss self lr eps start max_iter shape w))
         = stdout w ++ [converged_line (List.length h)]
         \/ stdout (snd (optimize gauss self lr eps start max_iter shape w))
            = stdout w ++ [not_converged_line max_iter]
     | Raise _ =>
         stdout (snd (optimize gauss self lr eps start max_iter shape w))
         = stdout w
     end.
Proof.
  intros A arith gauss self lr eps start max_iter shape w.
  pose proof (optimize_sound gauss self lr eps start max_iter shape w)
    as [Hr Hpost].
  split; [exact Hr|]. split.
  - destruct start; [|exact I]. rewrite Hr. simpl. lia.
  - destruct (fst (optimize gauss self lr eps start max_iter shape w))
      as [[xf h]|e]; [|exact Hpost].
    destruct Hpost as (_ & _ & [(_ & Ho & _)|(_ & Ho)]); [left|right];
      exact Ho.
Qed.


(** C9.  Constructed with the objective [x^2] alone, the optimizer acquires
    at [x = 2] the gradient [4.0000000000262048] in binary64, which is within
    [1e-3] of [4]; in exact arithmetic the quotient is [4] itself. *)
Theorem C9_finite_difference_at_two :
  __init__ (Some (square (A := float))) None
  = Ok (mkGD (Some square) None)
  /\ _get_gradient (A := float) (mkGD (Some square) None) (Scalar 2%float)
     = Ok (Scalar 0x1.000000000734p+2%float)
  /\ PrimFloat.ltb
       (PrimFloat.abs (PrimFloat.sub 0x1.000000000734p+2 4)) 1e-3 = true
  /\ exists g, _get_gradient (A := Q) (mkGD (Some square) None) (Scalar 2%Q)
               = Ok (Scalar g)
       /\ (g == 4)%Q.
Proof.
  split; [reflexivity|]. split; [vm_compute; reflexivity|].
  split; [vm_compute; reflexivity|].
  eexists. split; [reflexivity|]. simpl. field.
Qed.

(** C10.  Whenever [optimize] returns a non-empty history, the returned point
    is the ["x"] of the last record, and the ["x"] of every record is the
    ["x"] of the record before it minus [lr] times its own ["grad"], entry by
    entry (for the first record: the entries of the initial point minus that
    step). *)
Theorem C10_history_chain :
  forall (A : Type) (arith : Arith A) (gauss : nat -> A)
         (self : GradientDescent (callable A)) (lr eps : A)
         start max_iter shape w xf h w',
  optimize gauss self lr eps start max_iter shape w = (Ok (xf, h), w') ->
  h <> [] ->
  (exists h0 r, h = h0 ++ [r] /\ hist_x r = xf)
  /\ (forall k r1 r2,
        nth_error h k = Some r1 -> nth_error h (S k) = Some r2 ->
        exists l, hist_x r1 = Array l
          /\ steps_to lr l (hist_grad r2) (hist_x r2))
  /\ (forall r, nth_error h 0 = Some r ->
        steps_to lr
          (match initial_point gauss start shape w with
           | Scalar a => [a]
           | Array l => l
           end)
          (hist_grad r) (hist_x r)).
Proof.
  intros A arith gauss self lr eps start max_iter shape w xf h w' Hopt Hne.
  pose proof (optimize_sound gauss self lr eps start max_iter shape w)
    as [_ Hpost].
  rewrite Hopt in Hpost. simpl in Hpost. destruct Hpost as (Ha & Hx & _).
  split; [|split].
  - destruct (exists_last Hne) as (h0 & r & ->). exists h0, r.
    split; [reflexivity|]. rewrite Hx. symmetry. apply last_point_snoc.
  - intros k r1 r2 H1 H2.
    destruct (applied_updates_nth _ _ _ _ _ _ Ha H1 H2) as (_ & _ & Hs).
    assert (Harr : np_array1 (hist_x r1) = hist_x r1).
    { eapply applied_updates_arrays; [exact Ha|].
      apply (nth_error_In _ _ H1). }
    apply value_sub_steps in Hs.
    destruct (hist_x r1) as [a|l]; [discriminate|].
    exists l. split; [reflexivity|exact Hs].
  - intros r Hr. destruct h as [|r0 h]; [discriminate|].
    simpl in Hr. inversion Hr; subst r0. destruct Ha as (_ & _ & Hs & _).
    apply value_sub_steps in Hs. exact Hs.
Qed.

(** ** Runs that contradict a claim as stated *)

(** C7, a call that touches global state: without a start the initial point
    is drawn from the process-wide generator, whose position has moved when
    the call returns (by one for a scalar, by three for the shape [(3,)]). *)
Lemma C7_generator_advances :
  rng_pos (snd (optimize (fun _ => 0.5%float) (mkGD None (Some two_x))
                  0.1%float 1e-6%float None 100 None empty_world))
  <> rng_pos empty_world
  /\ rng_pos (snd (optimize (fun _ => 0.5%float) (mkGD None (Some two_x))
                     0.1%float 1e-6%float None 100 (Some 3) empty_world))
     = rng_pos empty_world + 3.
Proof. split; [vm_compute; discriminate|vm_compute; reflexivity]. Qed.


(** ** The claims on concrete runs *)

(** C1 on [descent_2x] from the scalar [1]: with [eps = 1] the first step
    [0.2] passes the test and the loop breaks; with [eps = 1/1000] it is
    applied. *)
Lemma C1_witness :
  loop descent_2x (1 # 10)%Q 1%Q 1 0 (Scalar 1%Q) [] empty_world
  = (Ok (Scalar 1%Q, [], true),
     mkWorld 0 ["Converged in 0 iterations. Breaking..."%string])
  /\ loop descent_2x (1 # 10)%Q (1 # 1000)%Q 1 0 (Scalar 1%Q) [] empty_world
     = loop descent_2x (1 # 10)%Q (1 # 1000)%Q 0 1 (Array [(8 # 10)%Q])
         [mkHist (Array [(8 # 10)%Q]) (Scalar 2%Q)] empty_world
  /\ applied_updates descent_2x (1 # 10)%Q (1 # 1000)%Q (Scalar 1%Q)
       [mkHist (Array [(8 # 10)%Q]) (Scalar 2%Q)].
Proof.
  split; [|split].
  - destruct (C1_iteration_breaks_or_updates Q_arith no_draws descent_2x
                (1 # 10)%Q 1%Q) as [Hit _].
    destruct (Hit 0 0 (Scalar 1%Q) [] empty_world (Scalar 2%Q) eq_refl)
      as [Hbreak _].
    exact (Hbreak eq_refl).
  - destruct (C1_iteration_breaks_or_updates Q_arith no_draws descent_2x
                (1 # 10)%Q (1 # 1000)%Q) as [Hit _].
    destruct (Hit 0 0 (Scalar 1%Q) [] empty_world (Scalar 2%Q) eq_refl)
      as [_ Hupd].
    exact (Hupd (Array [(8 # 10)%Q]) eq_refl eq_refl).
  - destruct (C1_iteration_breaks_or_updates Q_arith no_draws descent_2x
                (1 # 10)%Q (1 # 1000)%Q) as [_ Hcall].
    exact (proj1 (Hcall (Some (Scalar 1%Q)) 1%Z None empty_world
                    (Array [(8 # 10)%Q])
                    [mkHist (Array [(8 # 10)%Q]) (Scalar 2%Q)]
                    (mkWorld 0 ["Not converged after 1 iterations."%string])
                    eq_refl)).
Defined.

(** C2 on the gradient [2 x] at [x = 2]; on the sum of squares, which has
    one value for a vector, at [(1, 2)], where the quotient is [6]; on the
    objective [x^2] at the vector [(2, 3)]; and on an objective that
    raises. *)
Lemma C2_witness :
  _get_gradient descent_2x (Scalar 2%Q) = two_x (Scalar 2%Q)
  /\ _get_gradient (mkGD (Some sum_of_squares) None) (Array [1%Q; 2%Q])
     = Ok (Scalar (120000000000000000000000000000000000000000
                   # 20000000000000000000000000000000000000000)%Q)
  /\ _get_gradient (mkGD (Some square) None) (Array [2%Q; 3%Q])
     = Ok (vmap (fun a : Q =>
                   div (sub (mul (add a fd_eps) (add a fd_eps))
                            (mul (sub a fd_eps) (sub a fd_eps)))
                       (mul two fd_eps))
             (Array [2%Q; 3%Q]))
  /\ _get_gradient
       (mkGD (Some (fun _ : value Q => Raise (Exception "no objective")))
          None) (Scalar 2%Q)
     = Raise (Exception "no objective").
Proof.
  destruct (C2_gradient_acquisition Q_arith) as (Hg & Hfd & Hraise & Hphi & _).
  split; [|split; [|split]].
  - exact (Hg None two_x descent_2x (Scalar 2%Q) eq_refl).
  - rewrite (Hfd sum_of_squares (mkGD (Some sum_of_squares) None)
               (Array [1%Q; 2%Q]) _ _ eq_refl eq_refl eq_refl).
    reflexivity.
  - exact (Hphi (fun a : Q => mul a a) (mkGD (Some square) None)
             (Array [2%Q; 3%Q]) eq_refl).
  - apply (Hraise (fun _ : value Q => Raise (Exception "no objective"))
             (mkGD (Some (fun _ : value Q => Raise (Exception "no objective")))
                None) (Scalar 2%Q) (Exception "no objective") eq_refl).
    left. reflexivity.
Defined.

(** C3 on references of a type with nothing to evaluate. *)
Lemma C3_witness :
  __init__ (F := unit) None None
  = Raise (ValueError "Either func or grad_func must be provided")
  /\ __init__ (Some tt) None = Ok (mkGD (Some tt) None).
Proof.
  split.
  - exact (proj1 (C3_construction (F := unit) None None) (conj eq_refl eq_refl)).
  - apply (proj1 (proj2 (C3_construction (Some tt) None))).
    left. discriminate.
Defined.

(** C4 on [descent_2x] with [lr = 1/4], [eps = 1/2] and one iteration from
    [1], whose step [1/2] is not below [eps] (though a second step would
    be); on [constant_slope], five iterations and five records; and on a run
    of [descent_2x] that converges at once, with a history shorter than
    [max_iter]. *)
Lemma C4_witness :
  (exists xf r w',
      optimize no_draws descent_2x (1 # 4)%Q (1 # 2)%Q (Some (Scalar 1%Q)) 1
        None empty_world = (Ok (xf, [r]), w')
      /\ stdout w' = stdout empty_world ++ [not_converged_line 1])
  /\ (exists xf h w',
        optimize no_draws constant_slope 1%Q (1 # 2)%Q (Some (Scalar 3%Q)) 5
          None empty_world = (Ok (xf, h), w')
        /\ Z.of_nat (List.length h) = 5%Z
        /\ stdout w' = stdout empty_world ++ [not_converged_line 5])
  /\ (Z.of_nat (@List.length (hist Q) []) < 100)%Z.
Proof.
  split; [|split].
  - apply (proj2 (proj2 (proj2
             (C4_non_convergence_returns Q_arith no_draws descent_2x
                (1 # 4)%Q (1 # 2)%Q (Some (Scalar 1%Q)) None empty_world)))).
    exists (Scalar 2%Q), (Array [(2 # 4)%Q]).
    split; [reflexivity|]. split; [reflexivity|]. split; [reflexivity|].
    exact I.
  - apply (proj1 (C4_non_convergence_returns Q_arith no_draws constant_slope
                    1%Q (1 # 2)%Q (Some (Scalar 3%Q)) None empty_world)
             5%Z).
    + reflexivity.
    + apply never_converges_runs with (P := single).
      * exact constant_slope_never_converges.
      * reflexivity.
  - exact (proj1 (proj2 (proj2 (C4_non_convergence_returns Q_arith no_draws
                           descent_2x (1 # 10)%Q 1%Q (Some (Scalar 1%Q)) None
                           empty_world)))
             100%Z (Scalar 1%Q) []
             (mkWorld 0 ["Converged in 0 iterations. Breaking..."%string]) 0
             eq_refl eq_refl).
Defined.

(** C5 on [descent_2x]. *)
Lemma C5_witness :
  exists xf h w',
    optimize no_draws descent_2x (1 # 10)%Q (1 # 1000)%Q (Some (Scalar 1%Q))
      100 None empty_world = (Ok (xf, h), w')
    /\ (Z.of_nat (List.length h) <= 100)%Z
    /\ ending descent_2x (1 # 10)%Q (1 # 1000)%Q 100 empty_world w' xf h.
Proof.
  apply (proj1 (C5_optimize_returns Q_arith no_draws descent_2x
                  (1 # 10)%Q (1 # 1000)%Q (Some (Scalar 1%Q)) 100 None
                  empty_world) single).
  - reflexivity.
  - exact (square_steps_safely descent_2x_square (1 # 10)%Q (1 # 1000)%Q).
  - reflexivity.
Defined.

(** C6 on [descent_2x] from the scalar [1]: returned as a scalar when the
    first step passes the test, as a one-element array after two updates. *)
Lemma C6_witness :
  optimize no_draws descent_2x (1 # 10)%Q 1%Q (Some (Scalar 1%Q)) 100 None
    empty_world
  = (Ok (Scalar 1%Q, []),
     mkWorld 0 ["Converged in 0 iterations. Breaking..."%string])
  /\ exists xf h w',
       optimize no_draws descent_2x (1 # 10)%Q (1 # 1000)%Q
         (Some (Scalar 1%Q)) 2 None empty_world = (Ok (xf, h), w')
       /\ isinstance_ndarray xf = true
       /\ exists b, xf = Array [b].
Proof.
  split.
  - exact (proj1 (C6_scalar_or_array Q_arith no_draws descent_2x (1 # 10)%Q
                    1%Q 1%Q 100 None empty_world)
             (Scalar 2%Q) eq_refl eq_refl eq_refl).
  - eexists; eexists; eexists. split; [vm_compute; reflexivity|].
    destruct (proj2 (C6_scalar_or_array Q_arith no_draws descent_2x
                       (1 # 10)%Q (1 # 1000)%Q 1%Q 2 None empty_world)
                _ _ _ eq_refl) as [Harr Hone]; [discriminate|].
    split; [exact Harr|].
    exact (Hone (square_scalar_mode descent_2x_square (1 # 10)%Q)).
Defined.


(** C10 on [descent_2x] with [lr = 1/10]: two updates from the scalar [1],
    to [1 - 1/10 * 2 = 8/10] and to [8/10 - 1/10 * 16/10 = 640/1000], the
    point returned. *)
Lemma C10_witness :
  optimize no_draws descent_2x (1 # 10)%Q (1 # 1000)%Q (Some (Scalar 1%Q))
    2 None empty_world
  = (Ok (Array [(640 # 1000)%Q],
         [mkHist (Array [(8 # 10)%Q]) (Scalar 2%Q);
          mkHist (Array [(640 # 1000)%Q]) (Array [(16 # 10)%Q])]),
     mkWorld 0 ["Not converged after 2 iterations."%string])
  /\ Array [(8 # 10)%Q]
     = Array (map (fun a => a - (1 # 10) * 2)%Q [1%Q])
  /\ Array [(640 # 1000)%Q]
     = Array (map (fun p => fst p - (1 # 10) * snd p)%Q
                (combine [(8 # 10)%Q] [(16 # 10)%Q])).
Proof.
  split; [reflexivity|].
  destruct (C10_history_chain Q_arith no_draws descent_2x (1 # 10)%Q
              (1 # 1000)%Q (Some (Scalar 1%Q)) 2 None empty_world
              (xf := Array [(640 # 1000)%Q])
              (h := [mkHist (Array [(8 # 10)%Q]) (Scalar 2%Q);
                     mkHist (Array [(640 # 1000)%Q]) (Array [(16 # 10)%Q])])
              (w' := mkWorld 0 ["Not converged after 2 iterations."%string])
              eq_refl) as (_ & Hchain & Hfirst); [discriminate|].
  split.
  - destruct (Hfirst _ eq_refl) as (_ & _ & Hone & _).
    exact (Hone 2%Q eq_refl).
  - destruct (Hchain 0 _ _ eq_refl eq_refl) as (l & Hl & _ & Heq & _).
    inversion Hl; subst l. exact (Heq eq_refl).
Defined.

(** ** Further properties of [optimize] *)

Section LoopFacts.

Context {A : Type} {arith : Arith A}.
Variable self : GradientDescent (callable A).
Variables lr eps : A.

(** A raising loop leaves the world as it was, and raises at the point
    reached after fewer than [n] applied updates. *)
Lemma loop_raises (n : nat) : forall i x history w e w',
  loop self lr eps n i x history w = (Raise e, w') ->
  w' = w
  /\ exists t, applied_updates self lr eps x t /\ List.length t < n
       /\ fails_at self lr eps (last_point x t) e.
Proof.
  induction n as [|n IH]; intros i x history w e w' Hl; [discriminate|].
  rewrite loop_S in Hl.
  destruct (_get_gradient self x) as [g|e0] eqn:Hg.
  - cbv zeta in Hl.
    destruct (norm_lt (np_array1 (float_mul lr g)) eps) eqn:Hn;
      [discriminate|].
    destruct (value_sub (np_array1 x) (np_array1 (float_mul lr g)))
      as [x'|e0] eqn:Hs.
    + destruct (IH _ _ _ _ _ _ Hl) as (Hw & t & Ha & Hlen & Hf).
      split; [exact Hw|]. exists (mkHist x' g :: t).
      split; [simpl; repeat split; assumption|].
      split; [simpl; lia|]. rewrite last_point_cons. exact Hf.
    + inversion Hl; subst. split; [reflexivity|]. exists [].
      split; [exact I|]. split; [simpl; lia|]. right. exists g.
      repeat split; assumption.
  - inversion Hl; subst. split; [reflexivity|]. exists [].
    split; [exact I|]. split; [simpl; lia|]. left. exact Hg.
Qed.

(** Conversely, a failure after fewer than [n] applied updates is raised. *)
Lemma loop_raises_at (t : list (hist A)) : forall n i x history w e,
  applied_updates self lr eps x t -> List.length t < n ->
  fails_at self lr eps (last_point x t) e ->
  loop self lr eps n i x history w = (Raise e, w).
Proof.
  induction t as [|r t IH]; intros n i x history w e Ha Hlen Hf;
    (destruct n as [|n]; [simpl in Hlen; lia|]); rewrite loop_S.
  - destruct Hf as [Hg|(g & Hg & Hn & Hs)]; unfold last_point in *;
      simpl in *; rewrite Hg; [reflexivity|].
    cbv zeta. rewrite Hn, Hs. reflexivity.
  - destruct Ha as (Hg & Hn & Hs & Ha). rewrite Hg. cbv zeta.
    rewrite Hn, Hs. rewrite last_point_cons in Hf.
    apply IH; [exact Ha|simpl in Hlen; lia|exact Hf].
Qed.

(** A loop that broke on convergence does the same with a larger budget. *)
Lemma loop_converged_mono (n : nat) : forall i x history w xf hf w' k,
  loop self lr eps n i x history w = (Ok (xf, hf, true), w') ->
  loop self lr eps (n + k) i x history w = (Ok (xf, hf, true), w').
Proof.
  induction n as [|n IH]; intros i x history w xf hf w' k Hl;
    [discriminate|].
  change (S n + k) with (S (n + k)). rewrite loop_S in Hl |- *.
  destruct (_get_gradient self x) as [g|e]; [|exact Hl].
  cbv zeta in Hl |- *.
  destruct (norm_lt (np_array1 (float_mul lr g)) eps); [exact Hl|].
  destruct (value_sub (np_array1 x) (np_array1 (float_mul lr g)));
    [|exact Hl].
  apply IH. exact Hl.
Qed.

(** A loop that used its budget up leaves the world as it was. *)
Lemma loop_exhausted_world (n : nat) : forall i x history w xf hf w',
  loop self lr eps n i x history w = (Ok (xf, hf, false), w') -> w' = w.
Proof.
  induction n as [|n IH]; intros i x history w xf hf w' Hl.
  - inversion Hl. reflexivity.
  - rewrite loop_S in Hl.
    destruct (_get_gradient self x) as [g|e]; [|discriminate].
    cbv zeta in Hl.
    destruct (norm_lt (np_array1 (float_mul lr g)) eps); [discriminate|].
    destruct (value_sub (np_array1 x) (np_array1 (float_mul lr g)));
      [|discriminate].
    apply (IH _ _ _ _ _ _ _ Hl).
Qed.

(** The flag of a finished loop, read off the printed lines. *)
Lemma loop_flag (n i : nat) (x : value A) (history : list (hist A))
  (w : world) xf hf c w' :
  loop self lr eps n i x history w = (Ok (xf, hf, c), w') ->
  if c then exists j, stdout w' = stdout w ++ [converged_line j]
  else stdout w' = stdout w.
Proof.
  intros Hl. pose proof (loop_sound self lr eps n i x history w) as [_ Hp].
  rewrite Hl in Hp. simpl in Hp. destruct Hp as (t & _ & _ & _ & Hc).
  destruct c.
  - destruct Hc as (_ & Ho & _). eexists. exact Ho.
  - destruct Hc as (_ & Ho). exact Ho.
Qed.

End LoopFacts.

Section CallFacts.

Context {A : Type} {arith : Arith A}.
Variable gauss : nat -> A.
Variable self : GradientDescent (callable A).
Variables lr eps : A.

(** A call that printed "Converged" is a loop that returned the flag set. *)
Lemma optimize_converged_loop start max_iter shape w xf h w' i :
  optimize gauss self lr eps start max_iter shape w = (Ok (xf, h), w') ->
  stdout w' = stdout w ++ [converged_line i] ->
  loop self lr eps (Z.to_nat max_iter) 0 (initial_point gauss start shape w)
    [] (after_draw start shape w) = (Ok (xf, h, true), w').
Proof.
  intros Hopt Hi. rewrite optimize_unfold in Hopt.
  destruct (loop self lr eps (Z.to_nat max_iter) 0
              (initial_point gauss start shape w) []
              (after_draw start shape w))
    as [[[[x1 h1] c]|e] w1] eqn:Hl; [|discriminate].
  destruct c; [inversion Hopt; subst; reflexivity|].
  inversion Hopt; subst. pose proof (loop_flag _ _ _ _ _ _ _ _ Hl) as Hf.
  simpl in Hf, Hi. rewrite Hf, after_draw_stdout in Hi.
  apply app_inj_tail in Hi. destruct Hi as [_ Hi].
  symmetry in Hi. exfalso. exact (converged_not_not_converged Hi).
Qed.

(** A call that printed "Not converged" is a loop that used its budget. *)
Lemma optimize_exhausted_loop start max_iter shape w xf h w' :
  optimize gauss self lr eps start max_iter shape w = (Ok (xf, h), w') ->
  stdout w' = stdout w ++ [not_converged_line max_iter] ->
  loop self lr eps (Z.to_nat max_iter) 0 (initial_point gauss start shape w)
    [] (after_draw start shape w)
  = (Ok (xf, h, false), after_draw start shape w).
Proof.
  intros Hopt Hi. rewrite optimize_unfold in Hopt.
  destruct (loop self lr eps (Z.to_nat max_iter) 0
              (initial_point gauss start shape w) []
              (after_draw start shape w))
    as [[[[x1 h1] c]|e] w1] eqn:Hl; [|discriminate].
  pose proof (loop_flag _ _ _ _ _ _ _ _ Hl) as Hf. destruct c.
  - inversion Hopt; subst. destruct Hf as [j Hj].
    rewrite after_draw_stdout, Hi in Hj.
    apply app_inj_tail in Hj. destruct Hj as [_ Hj].
    symmetry in Hj. exfalso. exact (converged_not_not_converged Hj).
  - inversion Hopt; subst.
    f_equal. eapply loop_exhausted_world. exact Hl.
Qed.

End CallFacts.

Section Composition.

Context {A : Type} {arith : Arith A}.
Variable self : GradientDescent (callable A).
Variables lr eps : A.

(** A budget of [n + k] iterations is a budget of [n] followed, when it is
    used up, by a budget of [k] from where the first one stopped. *)
Lemma loop_add (n k : nat) : forall i x history w,
  loop self lr eps (n + k) i x history w =
  match loop self lr eps n i x history w with
  | (Ok (x1, h1, false), w1) => loop self lr eps k (i + n) x1 h1 w1
  | other => other
  end.
Proof.
  induction n as [|n IH]; intros i x history w.
  - simpl. unfold ret. rewrite Nat.add_0_r. reflexivity.
  - change (S n + k) with (S (n + k)). rewrite !loop_S.
    destruct (_get_gradient self x) as [g|e]; [|reflexivity].
    cbv zeta.
    destruct (norm_lt (np_array1 (float_mul lr g)) eps); [reflexivity|].
    destruct (value_sub (np_array1 x) (np_array1 (float_mul lr g)));
      [|reflexivity].
    rewrite IH. replace (S i + n) with (i + S n) by lia. reflexivity.
Qed.

(** The history a loop starts with is carried along untouched, and neither
    it nor the iteration index nor the world bears on what is computed. *)
Lemma loop_prepend (k : nat) : forall i i' x h0 h w w',
  fst (loop self lr eps k i x (h0 ++ h) w) =
  match fst (loop self lr eps k i' x h w') with
  | Ok (x2, t, c) => Ok (x2, h0 ++ t, c)
  | Raise e => Raise e
  end.
Proof.
  induction k as [|k IH]; intros i i' x h0 h w w'; [reflexivity|].
  rewrite !loop_S.
  destruct (_get_gradient self x) as [g|e]; [|reflexivity].
  cbv zeta.
  destruct (norm_lt (np_array1 (float_mul lr g)) eps); [reflexivity|].
  destruct (value_sub (np_array1 x) (np_array1 (float_mul lr g))) as [x'|e];
    [|reflexivity].
  rewrite <- app_assoc. apply IH.
Qed.

Variable gauss : nat -> A.

(** The value of a call is the value of its loop, without the flag. *)
Lemma optimize_fst start max_iter shape w :
  fst (optimize gauss self lr eps start max_iter shape w) =
  match fst (loop self lr eps (Z.to_nat max_iter) 0
               (initial_point gauss start shape w) []
               (after_draw start shape w)) with
  | Ok (x, h, _) => Ok (x, h)
  | Raise e => Raise e
  end.
Proof.
  rewrite optimize_unfold.
  destruct (loop self lr eps (Z.to_nat max_iter) 0
              (initial_point gauss start shape w) []
              (after_draw start shape w)) as [[[[x h] [|]]|e] w1];
    reflexivity.
Qed.

End Composition.

(** X1.  With [max_iter <= 0] the loop body never runs: whatever the
    callables are, the call returns the initial point as it is (a scalar
    stays a scalar) with an empty history and prints "Not converged". *)
Theorem X1_no_budget_returns_start :
  forall (A : Type) (arith : Arith A) (gauss : nat -> A)
         (self : GradientDescent (callable A)) (lr eps : A)
         start max_iter shape w,
  (max_iter <= 0)%Z ->
  optimize gauss self lr eps start max_iter shape w
  = (Ok (initial_point gauss start shape w, []),
     mkWorld (rng_pos w + draws start shape)
       (stdout w ++ [not_converged_line max_iter])).
Proof.
  intros A arith gauss self lr eps start max_iter shape w Hle.
  rewrite optimize_unfold.
  replace (Z.to_nat max_iter) with 0 by lia. simpl. unfold ret.
  rewrite after_draw_rng, after_draw_stdout. reflexivity.
Qed.

(** X2.  An exception is propagated as it is, and silently: a call raises
    [e] exactly when, after fewer than [max_iter] applied updates from the
    initial point, the gradient acquisition or the subtraction at the point
    reached raises [e]; nothing is printed then, the updates made so far are
    lost, and the generator keeps the draws taken for the initial point. *)
Theorem X2_exceptions_propagate :
  forall (A : Type) (arith : Arith A) (gauss : nat -> A)
         (self : GradientDescent (callable A)) (lr eps : A)
         start max_iter shape w e,
  (forall w',
      optimize gauss self lr eps start max_iter shape w = (Raise e, w') ->
      w' = after_draw start shape w
      /\ exists t,
           applied_updates self lr eps (initial_point gauss start shape w) t
           /\ List.length t < Z.to_nat max_iter
           /\ fails_at self lr eps
                (last_point (initial_point gauss start shape w) t) e)
  /\ (forall t,
        applied_updates self lr eps (initial_point gauss start shape w) t ->
        List.length t < Z.to_nat max_iter ->
        fails_at self lr eps
          (last_point (initial_point gauss start shape w) t) e ->
        optimize gauss self lr eps start max_iter shape w
        = (Raise e, after_draw start shape w)).
Proof.
  intros A arith gauss self lr eps start max_iter shape w e.
  rewrite optimize_unfold. split.
  - intros w' Hopt.
    destruct (loop self lr eps (Z.to_nat max_iter) 0
                (initial_point gauss start shape w) []
                (after_draw start shape w))
      as [[[[x h] [|]]|e0] w1] eqn:Hl; try discriminate.
    inversion Hopt; subst e0 w1.
    destruct (loop_raises _ _ _ _ _ _ _ _ Hl) as (Hw & t & Ha & Hlen & Hf).
    split; [exact Hw|]. exists t. repeat split; assumption.
  - intros t Ha Hlen Hf.
    erewrite loop_raises_at; [reflexivity|exact Ha|exact Hlen|exact Hf].
Qed.

(** X3.  A larger budget does not change a converged run: if a call printed
    "Converged", the call with any [max_iter'] at least [max_iter] returns
    the same point and history and prints the same line. *)
Theorem X3_converged_run_is_budget_independent :
  forall (A : Type) (arith : Arith A) (gauss : nat -> A)
         (self : GradientDescent (callable A)) (lr eps : A)
         start max_iter shape w xf h w' i max_iter',
  optimize gauss self lr eps start max_iter shape w = (Ok (xf, h), w') ->
  stdout w' = stdout w ++ [converged_line i] ->
  (max_iter <= max_iter')%Z ->
  optimize gauss self lr eps start max_iter' shape w = (Ok (xf, h), w').
Proof.
  intros A arith gauss self lr eps start max_iter shape w xf h w' i max_iter'
         Hopt Hi Hle.
  pose proof Hopt as Hl. eapply optimize_converged_loop in Hl; [|exact Hi].
  rewrite optimize_unfold.
  replace (Z.to_nat max_iter')
    with (Z.to_nat max_iter + (Z.to_nat max_iter' - Z.to_nat max_iter))
    by lia.
  erewrite loop_converged_mono; [reflexivity|exact Hl].
Qed.

(** X4.  A run can be resumed.  If a call from [s] with budget [m] used its
    budget up and returned [(x1, h1)], then the call from [s] with budget
    [m + k] computes what the call from [x1] with budget [k] computes, with
    [h1] in front of the history; an exception of the one is the exception
    of the other. *)
Theorem X4_resume_after_exhaustion :
  forall (A : Type) (arith : Arith A) (gauss : nat -> A)
         (self : GradientDescent (callable A)) (lr eps : A)
         s m k shape shape' w x1 h1 w1 w2,
  (0 <= m)%Z -> (0 <= k)%Z ->
  optimize gauss self lr eps (Some s) m shape w = (Ok (x1, h1), w1) ->
  stdout w1 = stdout w ++ [not_converged_line m] ->
  fst (optimize gauss self lr eps (Some s) (m + k) shape w)
  = prepend_history h1
      (fst (optimize gauss self lr eps (Some x1) k shape' w2)).
Proof.
  intros A arith gauss self lr eps s m k shape shape' w x1 h1 w1 w2
         Hm Hk Hopt Hout.
  pose proof Hopt as Hl. eapply optimize_exhausted_loop in Hl; [|exact Hout].
  simpl in Hl. rewrite !optimize_fst. simpl initial_point. simpl after_draw.
  replace (Z.to_nat (m + k)) with (Z.to_nat m + Z.to_nat k) by lia.
  rewrite loop_add, Hl.
  rewrite <- (app_nil_r h1) at 1.
  rewrite (loop_prepend self lr eps (Z.to_nat k) (0 + Z.to_nat m) 0 x1 h1 []
             w w2).
  destruct (fst (loop self lr eps (Z.to_nat k) 0 x1 [] w2))
    as [[[x2 t] c]|e]; reflexivity.
Qed.

(** X5.  A converged point is a fixed point of [optimize]: started again from
    the point a converged call returned, with any positive budget, the call
    breaks in its first iteration and returns that point with an empty
    history. *)
Theorem X5_converged_point_is_fixed :
  forall (A : Type) (arith : Arith A) (gauss : nat -> A)
         (self : GradientDescent (callable A)) (lr eps : A)
         start max_iter shape w xf h w' i max_iter' shape' w2,
  optimize gauss self lr eps start max_iter shape w = (Ok (xf, h), w') ->
  stdout w' = stdout w ++ [converged_line i] ->
  (0 < max_iter')%Z ->
  optimize gauss self lr eps (Some xf) max_iter' shape' w2
  = (Ok (xf, []), mkWorld (rng_pos w2) (stdout w2 ++ [converged_line 0])).
Proof.
  intros A arith gauss self lr eps start max_iter shape w xf h w' i
         max_iter' shape' w2 Hopt Hi Hpos.
  pose proof Hopt as Hl. eapply optimize_converged_loop in Hl; [|exact Hi].
  pose proof (loop_sound self lr eps (Z.to_nat max_iter) 0
                (initial_point gauss start shape w) []
                (after_draw start shape w)) as [_ Hp].
  rewrite Hl in Hp. simpl in Hp.
  destruct Hp as (t & _ & _ & _ & _ & _ & g & Hg & Hn).
  rewrite optimize_unfold. simpl initial_point. simpl after_draw.
  destruct (Z.to_nat max_iter') as [|n] eqn:Hm; [lia|].
  rewrite loop_S, Hg. cbv zeta. rewrite Hn. reflexivity.
Qed.

Section StepInvariant.

Context {A : Type} {arith : Arith A}.
Variable self : GradientDescent (callable A).
Variables lr eps : A.

(** A property of points kept by every applied update holds along a
    history, of the point each record was stepped from and of its own. *)
Variable P : value A -> Prop.
Hypothesis Hstep : forall v g x',
  P v -> _get_gradient self v = Ok g ->
  value_sub (np_array1 v) (np_array1 (float_mul lr g)) = Ok x' -> P x'.

Lemma applied_updates_each (h : list (hist A)) : forall x,
  P x -> applied_updates self lr eps x h ->
  Forall (fun r => exists xp, P xp
            /\ _get_gradient self xp = Ok (hist_grad r)
            /\ P (hist_x r)) h
  /\ P (last_point x h).
Proof.
  induction h as [|r h IH]; intros x Hx Ha.
  - split; [constructor|exact Hx].
  - destruct Ha as (Hg & _ & Hs & Ha).
    pose proof (Hstep Hx Hg Hs) as Hr.
    destruct (IH _ Hr Ha) as [Hall Hlast]. split.
    + constructor; [|exact Hall]. exists x. repeat split; assumption.
    + rewrite last_point_cons. exact Hlast.
Qed.

End StepInvariant.

Section Shapes.

Context {A : Type} {arith : Arith A}.

Lemma zip_sub_length (l1 : list A) : forall l2,
  List.length l1 = List.length l2 ->
  List.length (zip_sub l1 l2) = List.length l1.
Proof.
  induction l1 as [|a l1 IH]; intros [|b l2] H; simpl in *;
    try discriminate; [reflexivity|].
  rewrite IH; [reflexivity|lia].
Qed.

Lemma same_shape_trans (u v x : value A) :
  same_shape u v -> same_shape v x -> same_shape u x.
Proof. intros [H1 H2] [H3 H4]. split; congruence. Qed.

Lemma same_shape_sym (u v : value A) : same_shape u v -> same_shape v u.
Proof. intros [H1 H2]. split; congruence. Qed.

Lemma add_float_shape (v : value A) (e : A) : same_shape v (add_float v e).
Proof.
  destruct v; split; try reflexivity. unfold entries. simpl.
  rewrite length_map. reflexivity.
Qed.

Lemma sub_float_shape (v : value A) (e : A) : same_shape v (sub_float v e).
Proof.
  destruct v; split; try reflexivity. unfold entries. simpl.
  rewrite length_map. reflexivity.
Qed.

Lemma div_float_shape (v : value A) (e : A) : same_shape v (div_float v e).
Proof.
  destruct v; split; try reflexivity. unfold entries. simpl.
  rewrite length_map. reflexivity.
Qed.

Lemma float_mul_entries (lr : A) (v : value A) :
  entries (np_array1 (float_mul lr v)) = entries v.
Proof.
  destruct v; unfold entries; simpl; [reflexivity|apply length_map].
Qed.

Lemma np_array1_entries (v : value A) : entries (np_array1 v) = entries v.
Proof. destruct v; reflexivity. Qed.

Lemma np_array1_idem (v : value A) : np_array1 (np_array1 v) = np_array1 v.
Proof. destruct v; reflexivity. Qed.

(** Values of one shape subtract without raising, into that shape. *)
Lemma value_sub_same_shape (u v : value A) :
  same_shape u v -> exists r, value_sub u v = Ok r /\ same_shape u r.
Proof.
  intros [Hk Hn]. destruct u as [a|l1], v as [b|l2]; try discriminate.
  - eexists. split; [reflexivity|]. split; reflexivity.
  - unfold entries in Hn. simpl in Hn. simpl. rewrite Hn, Nat.eqb_refl.
    eexists. split; [reflexivity|]. split; [reflexivity|].
    unfold entries. simpl. rewrite zip_sub_length; congruence.
Qed.

(** Arrays with the same number of entries subtract into such an array. *)
Lemma value_sub_entries (u v : value A) :
  entries u = entries v ->
  exists l, value_sub (np_array1 u) (np_array1 v) = Ok (Array l)
    /\ List.length l = entries u.
Proof.
  intros Hn.
  destruct (@value_sub_same_shape (np_array1 u) (np_array1 v))
    as (r & Hs & _ & Hr).
  - split; [rewrite !np_array1_is_array; reflexivity|].
    rewrite !np_array1_entries. exact Hn.
  - rewrite Hs. rewrite np_array1_entries in Hr.
    pose proof (value_sub_arrays _ _ Hs) as Harr.
    destruct r as [a|l]; [discriminate|]. exists l.
    split; [reflexivity|]. symmetry. exact Hr.
Qed.

Variable self : GradientDescent (callable A).
Variable c : callable A.
Hypothesis Hfrom : acquires_from (func self) (grad_func self) = Some c.
Hypothesis Hc : shape_preserving c.

(** With a shape-preserving callable the gradient is acquired without
    raising and has the shape of the point. *)
Lemma gradient_same_shape (v : value A) :
  exists g, _get_gradient self v = Ok g /\ same_shape v g.
Proof.
  unfold _get_gradient. unfold acquires_from in Hfrom.
  destruct (grad_func self) as [gf|].
  - inversion Hfrom; subst gf. apply Hc.
  - rewrite Hfrom.
    destruct (Hc (add_float v fd_eps)) as (fp & Hp & Hsp).
    destruct (Hc (sub_float v fd_eps)) as (fm & Hm & Hsm).
    rewrite Hp, Hm.
    assert (Hpm : same_shape fp fm).
    { apply same_shape_trans with (sub_float v fd_eps); [|exact Hsm].
      apply same_shape_trans with v; [|apply sub_float_shape].
      apply same_shape_trans with (add_float v fd_eps);
        [apply same_shape_sym; exact Hsp|].
      apply same_shape_sym. apply add_float_shape. }
    destruct (value_sub_same_shape Hpm) as (d & Hd & Hsd). rewrite Hd.
    eexists. split; [reflexivity|].
    apply same_shape_trans with d; [|apply div_float_shape].
    apply same_shape_trans with fp; [|exact Hsd].
    apply same_shape_trans with (add_float v fd_eps);
      [apply add_float_shape|exact Hsp].
Qed.

Variables lr eps : A.

Lemma shape_steps_safely (n : nat) :
  steps_safely self lr eps (fun v => entries v = n).
Proof.
  intros v Hv. destruct (gradient_same_shape v) as (g & Hg & _ & Hn).
  exists g. split; [exact Hg|]. right.
  destruct (@value_sub_entries v (np_array1 (float_mul lr g)))
    as (l & Hs & Hl).
  - rewrite float_mul_entries. exact Hn.
  - rewrite np_array1_idem in Hs. exists (Array l). split; [exact Hs|].
    unfold entries. simpl. congruence.
Qed.

End Shapes.

(** X6.  Shapes are kept.  For an optimizer built by [__init__] whose
    evaluated callable never raises and returns values shaped as its input,
    every call returns; the returned point, the point of every history
    record and its gradient have as many entries as the initial point, and
    every recorded point is an array.  With no start and the shape [(n,)]
    that number is [n]. *)
Theorem X6_shapes_are_kept :
  forall (A : Type) (arith : Arith A) (gauss : nat -> A)
         (f g : option (callable A)) (self : GradientDescent (callable A))
         (c : callable A) (lr eps : A) start max_iter shape w,
  __init__ f g = Ok self ->
  acquires_from f g = Some c ->
  shape_preserving c ->
  exists xf h w',
    optimize gauss self lr eps start max_iter shape w = (Ok (xf, h), w')
    /\ entries xf = entries (initial_point gauss start shape w)
    /\ (forall r, In r h ->
          exists l, hist_x r = Array l
            /\ List.length l = entries (initial_point gauss start shape w)
            /\ entries (hist_grad r)
               = entries (initial_point gauss start shape w))
    /\ (forall n, start = None -> shape = Some n ->
          entries (initial_point gauss start shape w) = n).
Proof.
  intros A arith gauss f g self c lr eps start max_iter shape w
         Hinit Hfrom Hc.
  assert (Hself : self = mkGD f g).
  { destruct f, g; simpl in Hinit; inversion Hinit; reflexivity. }
  subst self.
  set (x0 := initial_point gauss start shape w).
  assert (Hsafe := @shape_steps_safely A arith (mkGD f g) c Hfrom Hc lr eps
                     (entries x0)).
  destruct (optimize_returns gauss Hsafe start max_iter shape w eq_refl)
    as (xf & h & w' & Hopt).
  exists xf, h, w'. split; [exact Hopt|].
  pose proof (optimize_sound gauss (mkGD f g) lr eps start max_iter shape w)
    as [_ Hpost].
  rewrite Hopt in Hpost. simpl in Hpost. destruct Hpost as (Ha & Hx & _).
  fold x0 in Ha, Hx.
  assert (Hstep : forall v gr x',
             entries v = entries x0 ->
             _get_gradient (mkGD f g) v = Ok gr ->
             value_sub (np_array1 v) (np_array1 (float_mul lr gr)) = Ok x' ->
             entries x' = entries x0).
  { intros v gr x' Hv Hg Hs.
    destruct (@gradient_same_shape A arith (mkGD f g) c Hfrom Hc v)
      as (gr' & Hg' & _ & Hn).
    rewrite Hg in Hg'. inversion Hg'; subst gr'.
    destruct (@value_sub_entries A arith v (np_array1 (float_mul lr gr)))
      as (l & Hs' & Hl).
    - rewrite float_mul_entries. exact Hn.
    - rewrite np_array1_idem, Hs in Hs'. inversion Hs'; subst x'.
      unfold entries in *. simpl. congruence. }
  destruct (applied_updates_each (mkGD f g) lr eps
              (fun v => entries v = entries x0) Hstep h x0 eq_refl Ha)
    as [Hall Hlast].
  split; [rewrite Hx; exact Hlast|]. split.
  - intros r Hin. rewrite Forall_forall in Hall.
    destruct (Hall r Hin) as (xp & Hxp & Hg & Hr).
    assert (Harr : np_array1 (hist_x r) = hist_x r).
    { eapply applied_updates_arrays; [exact Ha|exact Hin]. }
    destruct (hist_x r) as [a|l] eqn:Hxr; [discriminate|].
    exists l. split; [reflexivity|]. split; [exact Hr|].
    destruct (@gradient_same_shape A arith (mkGD f g) c Hfrom Hc xp)
      as (gr' & Hg' & _ & Hn).
    rewrite Hg in Hg'. inversion Hg'; subst gr'. congruence.
  - intros n -> ->. unfold x0, entries. simpl.
    rewrite length_map, length_seq. reflexivity.
Qed.

(** *** NaN in binary64 *)

Lemma float_is_nan (x : float) : Prim2SF x = S754_nan -> x = PrimFloat.nan.
Proof. intros H. apply Prim2SF_inj. rewrite H. reflexivity. Qed.

Lemma mul_nan_r (x : float) : PrimFloat.mul x PrimFloat.nan = PrimFloat.nan.
Proof.
  apply float_is_nan. rewrite mul_spec. simpl.
  destruct (Prim2SF x); reflexivity.
Qed.

Lemma sub_nan_l (x : float) : PrimFloat.sub PrimFloat.nan x = PrimFloat.nan.
Proof. apply float_is_nan. rewrite sub_spec. reflexivity. Qed.

Lemma ltb_nan_l (x : float) : PrimFloat.ltb PrimFloat.nan x = false.
Proof. rewrite ltb_spec. reflexivity. Qed.

(** A NaN step never passes the convergence test and turns the point into
    a NaN. *)
Lemma nan_step (lr eps : float) (x g : value float) :
  single x -> is_nan_point g ->
  norm_lt (np_array1 (float_mul lr g)) eps = false
  /\ value_sub (np_array1 x) (np_array1 (float_mul lr g))
     = Ok (Array [PrimFloat.nan]).
Proof.
  intros Hx Hg.
  assert (Hd : np_array1 (float_mul lr g) = Array [PrimFloat.nan]).
  { unfold is_nan_point in Hg.
    destruct g as [d|[|d [|d' l]]]; inversion Hg; subst; simpl;
      change (mul lr PrimFloat.nan) with (PrimFloat.mul lr PrimFloat.nan);
      rewrite mul_nan_r; reflexivity. }
  rewrite Hd. split.
  - unfold norm_lt. simpl. apply ltb_nan_l.
  - destruct x as [a|[|a [|a' l]]]; try discriminate; simpl;
      change (sub a PrimFloat.nan) with (PrimFloat.sub a PrimFloat.nan);
      rewrite (float_is_nan (PrimFloat.sub a PrimFloat.nan)); try reflexivity;
      rewrite sub_spec; simpl; destruct (Prim2SF a); reflexivity.
Qed.

(** The gradient [2 x] of a NaN is a NaN. *)
Lemma two_x_nan (v : value float) :
  is_nan_point v ->
  exists g, _get_gradient float_descent_2x v = Ok g /\ is_nan_point g.
Proof.
  unfold is_nan_point. intros Hv.
  destruct v as [a|[|a [|a' l]]]; inversion Hv; subst;
    eexists; (split; [reflexivity|]); reflexivity.
Qed.

(** X7.  In binary64 a NaN never passes the convergence test.  If the
    initial point is a NaN and the gradient of a NaN is a NaN (as for
    [2 * x]), then for every [lr] and [eps] the call runs its whole budget:
    it returns a NaN with [max_iter] records, all NaN, and prints
    "Not converged"; no exception is raised. *)
Theorem X7_nan_runs_the_whole_budget :
  forall (gauss : nat -> float) (self : GradientDescent (callable float))
         (lr eps : float) start max_iter shape w,
  is_nan_point (initial_point gauss start shape w) ->
  (forall v, is_nan_point v ->
     exists g, _get_gradient self v = Ok g /\ is_nan_point g) ->
  exists xf h w',
    optimize gauss self lr eps start max_iter shape w = (Ok (xf, h), w')
    /\ is_nan_point xf
    /\ List.length h = Z.to_nat max_iter
    /\ stdout w' = stdout w ++ [not_converged_line max_iter]
    /\ (forall r, In r h ->
          hist_x r = Array [PrimFloat.nan] /\ is_nan_point (hist_grad r)).
Proof.
  intros gauss self lr eps start max_iter shape w Hx0 Hgrad.
  assert (Hsingle : forall v : value float, is_nan_point v -> single v).
  { unfold is_nan_point. intros v Hv.
    destruct v as [a|[|a [|a' l]]]; inversion Hv; reflexivity. }
  assert (Hnever : never_converges self lr eps is_nan_point).
  { intros v Hv. destruct (Hgrad v Hv) as (g & Hg & Hgn).
    destruct (nan_step lr eps (Hsingle v Hv) Hgn) as [Hn Hs].
    exists g, (Array [PrimFloat.nan]). repeat split; assumption. }
  destruct (loop_exhausts Hnever (Z.to_nat max_iter) 0 _ []
              (after_draw start shape w) Hx0) as (xf & hf & Hl & Hlen).
  pose proof (optimize_unfold gauss self lr eps start max_iter shape w) as Hu.
  rewrite Hl in Hu. exists xf, hf. eexists. split; [exact Hu|].
  pose proof (optimize_sound gauss self lr eps start max_iter shape w)
    as [_ Hpost].
  rewrite Hu in Hpost. simpl in Hpost. destruct Hpost as (Ha & Hx & _).
  assert (Hstep : forall v g x',
             is_nan_point v -> _get_gradient self v = Ok g ->
             value_sub (np_array1 v) (np_array1 (float_mul lr g)) = Ok x' ->
             is_nan_point x').
  { intros v g x' Hv Hg Hs. destruct (Hgrad v Hv) as (g' & Hg' & Hgn).
    rewrite Hg in Hg'. inversion Hg'; subst g'.
    destruct (nan_step lr eps (Hsingle v Hv) Hgn) as [_ Hs'].
    rewrite Hs in Hs'. inversion Hs'. reflexivity. }
  destruct (applied_updates_each self lr eps is_nan_point Hstep hf _ Hx0 Ha)
    as [Hall Hlast].
  split; [rewrite Hx; exact Hlast|]. split; [simpl in Hlen; exact Hlen|].
  split; [simpl; rewrite after_draw_stdout; reflexivity|].
  intros r Hin. rewrite Forall_forall in Hall.
  destruct (Hall r Hin) as (xp & Hxp & Hg & Hr).
  assert (Harr : np_array1 (hist_x r) = hist_x r).
  { eapply applied_updates_arrays; [exact Ha|exact Hin]. }
  split; [rewrite <- Harr; exact Hr|].
  destruct (Hgrad xp Hxp) as (g' & Hg' & Hgn).
  rewrite Hg in Hg'. inversion Hg'; subst g'. exact Hgn.
Qed.

(** *** The trajectory on [x^2] in exact arithmetic *)

Lemma square_trajectory (self : GradientDescent (callable Q))
  (Hself : square_optimizer self) (lr eps : Q) (h : list (hist Q)) :
  forall x q0 k r,
    np_array1 x = Array [q0] ->
    applied_updates self lr eps x h ->
    nth_error h k = Some r ->
    exists q, hist_x r = Array [q]
      /\ (q == q0 * Qpow (1 - 2 * lr) (S k))%Q.
Proof.
  induction h as [|r0 h IH]; intros x q0 k r Hx Ha Hk;
    [destruct k; discriminate|].
  pose proof Ha as (Hg & _ & Hs & Ha').
  destruct (square_step Hself lr _ Hx) as (g & c & Hg' & Hd & Hc).
  rewrite Hg in Hg'. inversion Hg'; subst g.
  rewrite Hx, Hd in Hs. inversion Hs as [Hr0].
  destruct k as [|k].
  - simpl in Hk. inversion Hk; subst r0. exists (q0 - lr * c)%Q.
    split; [symmetry; exact Hr0|]. simpl. rewrite Hc. ring.
  - simpl in Hk.
    destruct (IH (hist_x r0) (q0 - lr * c)%Q k r) as (q & Hq & Heq);
      [rewrite <- Hr0; reflexivity|exact Ha'|exact Hk|].
    exists q. split; [exact Hq|]. rewrite Heq, Hc.
    change (Qpow (1 - 2 * lr) (S (S k)))
      with ((1 - 2 * lr) * Qpow (1 - 2 * lr) (S k))%Q.
    ring.
Qed.

(** X8.  In exact arithmetic descent on [x^2] contracts geometrically: from
    the scalar start [a], for any [lr], on the finite-difference path as on
    the gradient path, the call returns and its [k]-th record (counted from
    one) holds the single entry [a * (1 - 2 lr)^k]. *)
Theorem X8_square_trajectory_is_geometric :
  forall (gauss : nat -> Q) (self : GradientDescent (callable Q))
         (lr eps a : Q) max_iter shape w,
  square_optimizer self ->
  exists xf h w',
    optimize gauss self lr eps (Some (Scalar a)) max_iter shape w
    = (Ok (xf, h), w')
    /\ forall k r, nth_error h k = Some r ->
         exists q, hist_x r = Array [q]
           /\ (q == a * Qpow (1 - 2 * lr) (S k))%Q.
Proof.
  intros gauss self lr eps a max_iter shape w Hself.
  destruct (optimize_returns gauss (square_steps_safely Hself lr eps)
              (Some (Scalar a)) max_iter shape w eq_refl)
    as (xf & h & w' & Hopt).
  exists xf, h, w'. split; [exact Hopt|].
  pose proof (optimize_sound gauss self lr eps (Some (Scalar a))
                max_iter shape w) as [_ Hpost].
  rewrite Hopt in Hpost. simpl in Hpost. destruct Hpost as (Ha & _ & _).
  intros k r Hk.
  eapply square_trajectory; [exact Hself| |exact Ha|exact Hk]; reflexivity.
Qed.

(** ** Properties of [pascal_case_to_snake_case] *)

Section SnakeCaseFacts.

Variable char : Type.
Variable isupper : char -> bool.
Variable lower : char -> list char.
Variable underscore : char.

Local Abbreviation snake_loop := (snake_loop isupper lower underscore).
Local Abbreviation to_snake :=
  (pascal_case_to_snake_case isupper lower underscore).

(** The string built so far is only ever appended to. *)
Lemma snake_loop_acc (s : list char) : forall i acc,
  snake_loop i s acc = acc ++ snake_loop i s [].
Proof.
  induction s as [|c s IH]; intros i acc; simpl.
  - rewrite app_nil_r. reflexivity.
  - rewrite IH. rewrite (IH _ ((if (0 <? i) && isupper c
                                then [] ++ [underscore] else []) ++ lower c)).
    destruct ((0 <? i) && isupper c); simpl;
      repeat rewrite <- app_assoc; reflexivity.
Qed.

(** Past the first character every character contributes its own piece. *)
Lemma snake_loop_pieces (s : list char) : forall i,
  snake_loop (S i) s [] =
  flat_map (fun c => (if isupper c then [underscore] else []) ++ lower c) s.
Proof.
  induction s as [|c s IH]; intros i; [reflexivity|].
  simpl. rewrite snake_loop_acc, IH.
  destruct (isupper c); simpl; rewrite <- ?app_assoc; reflexivity.
Qed.

Lemma to_snake_cons (c : char) (s : list char) :
  to_snake (c :: s) =
  lower c
  ++ flat_map (fun d => (if isupper d then [underscore] else []) ++ lower d) s.
Proof.
  unfold pascal_case_to_snake_case. simpl.
  rewrite snake_loop_acc, snake_loop_pieces. reflexivity.
Qed.

Lemma flat_map_length_pieces (s : list char) :
  List.length
    (flat_map (fun d => (if isupper d then [underscore] else []) ++ lower d) s)
  = List.length (flat_map lower s) + count_upper isupper s.
Proof.
  unfold count_upper.
  induction s as [|c s IH]; [reflexivity|]. simpl.
  rewrite !length_app, IH. destruct (isupper c); simpl; lia.
Qed.

(** Lower-case text is left alone. *)
Lemma pieces_of_lower (s : list char) :
  Forall (fun d => isupper d = false /\ lower d = [d]) s ->
  flat_map (fun d => (if isupper d then [underscore] else []) ++ lower d) s
  = s.
Proof.
  induction 1 as [|d s [Hu Hl] _ IH]; [reflexivity|].
  simpl. rewrite Hu, Hl, IH. reflexivity.
Qed.

Lemma to_snake_of_lower (s : list char) :
  Forall (fun d => isupper d = false /\ lower d = [d]) s -> to_snake s = s.
Proof.
  intros H. destruct s as [|c s]; [reflexivity|].
  rewrite to_snake_cons. inversion H as [|? ? [_ Hl] Hs]; subst.
  rewrite Hl, (pieces_of_lower Hs). reflexivity.
Qed.

End SnakeCaseFacts.

(** X9.  The conversion works character by character: the first character
    is lowered, every later one is lowered and, when upper-case, preceded by
    one underscore (so each capital of an acronym gets its own).  The empty
    string is converted to the empty string, the result never starts with an
    inserted underscore, and its length is that of the lowered text plus the
    number of upper-case characters after the first. *)
Theorem X9_snake_case_by_characters :
  forall (char : Type) (isupper : char -> bool) (lower : char -> list char)
         (underscore : char),
  pascal_case_to_snake_case isupper lower underscore [] = []
  /\ (forall c s,
        pascal_case_to_snake_case isupper lower underscore (c :: s)
        = lower c
          ++ flat_map (fun d => (if isupper d then [underscore] else [])
                                ++ lower d) s)
  /\ (forall s,
        List.length (pascal_case_to_snake_case isupper lower underscore s)
        = List.length (flat_map lower s) + count_upper isupper (tl s)).
Proof.
  intros char isupper lower underscore. split; [reflexivity|]. split.
  - apply to_snake_cons.
  - intros [|c s]; [reflexivity|].
    rewrite to_snake_cons, length_app, flat_map_length_pieces.
    simpl. rewrite length_app. lia.
Qed.

(** X10.  When the characters of a lowered character are not upper-case and
    are their own lower case, and so is the underscore, the result has no
    upper-case character and converting it again changes nothing. *)
Theorem X10_snake_case_is_lower_and_idempotent :
  forall (char : Type) (isupper : char -> bool) (lower : char -> list char)
         (underscore : char),
  (forall c d, In d (lower c) -> isupper d = false /\ lower d = [d]) ->
  isupper underscore = false /\ lower underscore = [underscore] ->
  forall s,
    Forall (fun d => isupper d = false)
      (pascal_case_to_snake_case isupper lower underscore s)
    /\ pascal_case_to_snake_case isupper lower underscore
         (pascal_case_to_snake_case isupper lower underscore s)
       = pascal_case_to_snake_case isupper lower underscore s.
Proof.
  intros char isupper lower underscore Hlow Hus s.
  assert (Hall : Forall (fun d => isupper d = false /\ lower d = [d])
                   (pascal_case_to_snake_case isupper lower underscore s)).
  { destruct s as [|c s]; [constructor|]. rewrite to_snake_cons.
    apply Forall_app. split.
    - apply Forall_forall. intros d Hd. exact (Hlow c d Hd).
    - apply Forall_flat_map. apply Forall_forall. intros d _.
      apply Forall_app. split.
      + destruct (isupper d); constructor; [exact Hus|constructor].
      + apply Forall_forall. intros d' Hd'. exact (Hlow d d' Hd'). }
  split.
  - eapply Forall_impl; [|exact Hall]. intros d [Hd _]. exact Hd.
  - apply to_snake_of_lower. exact Hall.
Qed.

(** *** ASCII names *)

Lemma ascii_lower_single (c : ascii) :
  exists d, ascii_lower c = [d]
    /\ ascii_isupper d = false /\ ascii_lower d = [d].
Proof.
  destruct c as [[] [] [] [] [] [] [] []];
    eexists; (split; [reflexivity|]); split; reflexivity.
Qed.

Lemma ascii_lower_of_lower (c : ascii) :
  ascii_isupper c = false -> ascii_lower c = [c].
Proof. intros H. unfold ascii_lower. rewrite H. reflexivity. Qed.

Lemma ascii_lower_underscore (c : ascii) :
  ascii_lower c = ["_"%char] -> c = "_"%char.
Proof.
  destruct c as [[] [] [] [] [] [] [] []]; intros H;
    try reflexivity; discriminate.
Qed.

Lemma ascii_lower_of_upper (c : ascii) :
  ascii_isupper c = true ->
  ascii_lower c = [ascii_of_nat (nat_of_ascii c + 32)]
  /\ nat_of_ascii c + 32 < 256.
Proof.
  intros H. unfold ascii_lower. rewrite H. split; [reflexivity|].
  unfold ascii_isupper in H. apply andb_true_iff in H. destruct H as [_ H].
  apply Nat.leb_le in H. lia.
Qed.

(** Lowering keeps characters of the same case apart. *)
Lemma ascii_lower_inj (c1 c2 : ascii) :
  ascii_isupper c1 = ascii_isupper c2 ->
  ascii_lower c1 = ascii_lower c2 -> c1 = c2.
Proof.
  intros Hcase Hlow. destruct (ascii_isupper c1) eqn:H1; symmetry in Hcase.
  - destruct (ascii_lower_of_upper _ H1) as [E1 B1].
    destruct (ascii_lower_of_upper _ Hcase) as [E2 B2].
    rewrite E1, E2 in Hlow. inversion Hlow as [Heq].
    apply (f_equal nat_of_ascii) in Heq.
    rewrite !nat_ascii_embedding in Heq by assumption.
    rewrite <- (ascii_nat_embedding c1), <- (ascii_nat_embedding c2).
    f_equal. lia.
  - rewrite (ascii_lower_of_lower _ H1), (ascii_lower_of_lower _ Hcase)
      in Hlow.
    inversion Hlow. reflexivity.
Qed.

(** The pieces of the characters after the first determine them, for
    strings without underscores. *)
Lemma ascii_pieces_inj (s1 : list ascii) : forall s2,
  ~ In "_"%char s1 -> ~ In "_"%char s2 ->
  flat_map (fun d => (if ascii_isupper d then ["_"%char] else [])
                     ++ ascii_lower d) s1
  = flat_map (fun d => (if ascii_isupper d then ["_"%char] else [])
                       ++ ascii_lower d) s2 ->
  s1 = s2.
Proof.
  induction s1 as [|c1 s1 IH]; intros [|c2 s2] H1 H2 Heq.
  - reflexivity.
  - simpl in Heq. destruct (ascii_lower_single c2) as (d & Hd & _).
    rewrite Hd in Heq. destruct (ascii_isupper c2); discriminate.
  - simpl in Heq. destruct (ascii_lower_single c1) as (d & Hd & _).
    rewrite Hd in Heq. destruct (ascii_isupper c1); discriminate.
  - simpl in Heq, H1, H2.
    destruct (ascii_lower_single c1) as (d1 & Hd1 & _).
    destruct (ascii_lower_single c2) as (d2 & Hd2 & _).
    rewrite Hd1, Hd2 in Heq.
    destruct (ascii_isupper c1) eqn:U1, (ascii_isupper c2) eqn:U2;
      simpl in Heq; inversion Heq; subst.
    + assert (c1 = c2) by (apply ascii_lower_inj; congruence).
      subst c2. f_equal. apply IH; tauto.
    + exfalso. apply H2. left. apply ascii_lower_underscore. exact Hd2.
    + exfalso. apply H1. left. apply ascii_lower_underscore. exact Hd1.
    + assert (c1 = c2) by (apply ascii_lower_inj; congruence).
      subst c2. f_equal. apply IH; tauto.
Qed.

(** X11.  Distinct class names get distinct snake-case names: on ASCII
    strings without underscores whose first characters have the same case
    (as PascalCase names do), the conversion is injective. *)
Theorem X11_snake_case_injective_on_names :
  forall s1 s2 : list ascii,
  Forall (fun c => nat_of_ascii c < 128) (s1 ++ s2) ->
  ~ In "_"%char s1 -> ~ In "_"%char s2 ->
  option_map ascii_isupper (hd_error s1)
  = option_map ascii_isupper (hd_error s2) ->
  pascal_case_to_snake_case ascii_isupper ascii_lower "_"%char s1
  = pascal_case_to_snake_case ascii_isupper ascii_lower "_"%char s2 ->
  s1 = s2.
Proof.
  intros [|c1 s1] [|c2 s2] _ H1 H2 Hcase Heq; try discriminate.
  - reflexivity.
  - rewrite !to_snake_cons in Heq.
    destruct (ascii_lower_single c1) as (d1 & Hd1 & _).
    destruct (ascii_lower_single c2) as (d2 & Hd2 & _).
    rewrite Hd1, Hd2 in Heq. simpl in Heq, Hcase, H1, H2.
    inversion Heq as [[Hd Hrest]]. inversion Hcase as [Hc].
    assert (c1 = c2) by (apply ascii_lower_inj; congruence).
    subst c2. f_equal. apply ascii_pieces_inj; tauto.
Qed.

(** X12.  [get_colors] returns eight primary colours in either mode, the
    first of which is the background colour itself; the dark palette is the
    light one inverted colour by colour; and when inversion is injective and
    black is not white, the primary colour differs from the background in
    either mode. *)
Theorem X12_palette :
  forall (color : Type) (invert : color -> color)
         (BLACK WHITE GRAY_A RED_A BLUE_A GREEN_A MAROON_A TEAL_A
          DARKER_GRAY : color) (dark_mode : bool),
  List.length (snd (get_colors invert BLACK WHITE GRAY_A RED_A BLUE_A GREEN_A
                      MAROON_A TEAL_A DARKER_GRAY dark_mode)) = 8
  /\ hd_error (snd (get_colors invert BLACK WHITE GRAY_A RED_A BLUE_A GREEN_A
                      MAROON_A TEAL_A DARKER_GRAY dark_mode))
     = Some (fst (fst (get_colors invert BLACK WHITE GRAY_A RED_A BLUE_A
                         GREEN_A MAROON_A TEAL_A DARKER_GRAY dark_mode)))
  /\ get_colors invert BLACK WHITE GRAY_A RED_A BLUE_A GREEN_A MAROON_A
       TEAL_A DARKER_GRAY true
     = (invert WHITE, invert BLACK,
        map invert (snd (get_colors invert BLACK WHITE GRAY_A RED_A BLUE_A
                           GREEN_A MAROON_A TEAL_A DARKER_GRAY false)))
  /\ ((forall a b, invert a = invert b -> a = b) -> BLACK <> WHITE ->
      snd (fst (get_colors invert BLACK WHITE GRAY_A RED_A BLUE_A GREEN_A
                  MAROON_A TEAL_A DARKER_GRAY dark_mode))
      <> fst (fst (get_colors invert BLACK WHITE GRAY_A RED_A BLUE_A GREEN_A
                     MAROON_A TEAL_A DARKER_GRAY dark_mode))).
Proof.
  intros color invert BLACK WHITE GRAY_A RED_A BLUE_A GREEN_A MAROON_A
         TEAL_A DARKER_GRAY dark_mode.
  split; [destruct dark_mode; reflexivity|].
  split; [destruct dark_mode; reflexivity|].
  split; [reflexivity|].
  intros Hinj Hbw. destruct dark_mode; simpl; [|exact Hbw].
  intros H. apply Hbw. apply Hinj. exact H.
Qed.

(** X13.  When a start is given, [shape] is ignored and neither the
    generator nor what was printed before bears on the run: the returned
    point and history (or the exception raised) are the same for every
    shape and in every world, and the generator is left where it was. *)
Theorem X13_given_start_ignores_shape_and_world :
  forall (A : Type) (arith : Arith A) (gauss : nat -> A)
         (self : GradientDescent (callable A)) (lr eps : A)
         s max_iter shape shape' w w',
  fst (optimize gauss self lr eps (Some s) max_iter shape w)
  = fst (optimize gauss self lr eps (Some s) max_iter shape' w')
  /\ rng_pos (snd (optimize gauss self lr eps (Some s) max_iter shape w))
     = rng_pos w.
Proof.
  intros A arith gauss self lr eps s max_iter shape shape' w w'. split.
  - rewrite !optimize_fst. simpl initial_point. simpl after_draw.
    change (@nil (hist A)) with ((@nil (hist A)) ++ []) at 1.
    rewrite (loop_prepend self lr eps (Z.to_nat max_iter) 0 0 s [] [] w w').
    destruct (fst (loop self lr eps (Z.to_nat max_iter) 0 s [] w'))
      as [[[x t] c]|e]; reflexivity.
  - pose proof (optimize_sound gauss self lr eps (Some s) max_iter shape w)
      as [Hr _].
    rewrite Hr. simpl. lia.
Qed.

(** ** The further properties on concrete runs *)

Lemma square_shape_preserving : shape_preserving (square (A := Q)).
Proof.
  intros v. eexists. split; [reflexivity|].
  destruct v; split; try reflexivity. unfold entries. simpl.
  rewrite length_map. reflexivity.
Qed.

(** X1 on an optimizer whose gradient would raise: with no budget it is
    never called. *)
Lemma X1_witness :
  optimize no_draws raising_gradient (1 # 10)%Q (1 # 1000)%Q
    (Some (Scalar 3%Q)) 0 None empty_world
  = (Ok (Scalar 3%Q, []),
     mkWorld 0 ["Not converged after 0 iterations."%string]).
Proof.
  apply (@X1_no_budget_returns_start Q Q_arith no_draws raising_gradient
           (1 # 10)%Q (1 # 1000)%Q (Some (Scalar 3%Q)) 0 None empty_world).
  discriminate.
Defined.

(** X2 on the same optimizer with a budget: the exception comes out. *)
Lemma X2_witness :
  optimize no_draws raising_gradient (1 # 10)%Q (1 # 1000)%Q
    (Some (Scalar 3%Q)) 5 None empty_world
  = (Raise (Exception "no gradient"), empty_world).
Proof.
  apply (proj2 (@X2_exceptions_propagate Q Q_arith no_draws raising_gradient
                  (1 # 10)%Q (1 # 1000)%Q (Some (Scalar 3%Q)) 5 None
                  empty_world (Exception "no gradient")) []).
  - exact I.
  - simpl. lia.
  - left. reflexivity.
Defined.

(** X3 on [descent_2x] converging at once: budget 1 and budget 100. *)
Lemma X3_witness :
  optimize no_draws descent_2x (1 # 10)%Q 1%Q (Some (Scalar 1%Q)) 100 None
    empty_world
  = (Ok (Scalar 1%Q, []),
     mkWorld 0 ["Converged in 0 iterations. Breaking..."%string]).
Proof.
  apply (@X3_converged_run_is_budget_independent Q Q_arith no_draws
           descent_2x (1 # 10)%Q 1%Q (Some (Scalar 1%Q)) 1 None empty_world
           (Scalar 1%Q) []
           (mkWorld 0 ["Converged in 0 iterations. Breaking..."%string])
           0 100).
  - reflexivity.
  - reflexivity.
  - discriminate.
Defined.

(** X4 on [descent_2x]: one iteration, then one more. *)
Lemma X4_witness :
  fst (optimize no_draws descent_2x (1 # 10)%Q (1 # 1000)%Q
         (Some (Scalar 1%Q)) (1 + 1) None empty_world)
  = prepend_history [mkHist (Array [(8 # 10)%Q]) (Scalar 2%Q)]
      (fst (optimize no_draws descent_2x (1 # 10)%Q (1 # 1000)%Q
              (Some (Array [(8 # 10)%Q])) 1 None empty_world)).
Proof.
  apply (@X4_resume_after_exhaustion Q Q_arith no_draws descent_2x
           (1 # 10)%Q (1 # 1000)%Q (Scalar 1%Q) 1 1 None None empty_world
           (Array [(8 # 10)%Q]) [mkHist (Array [(8 # 10)%Q]) (Scalar 2%Q)]
           (mkWorld 0 ["Not converged after 1 iterations."%string])
           empty_world).
  - discriminate.
  - discriminate.
  - reflexivity.
  - reflexivity.
Defined.

(** X5 on the point [descent_2x] converged at. *)
Lemma X5_witness :
  optimize no_draws descent_2x (1 # 10)%Q 1%Q (Some (Scalar 1%Q)) 7 None
    empty_world
  = (Ok (Scalar 1%Q, []),
     mkWorld 0 ["Converged in 0 iterations. Breaking..."%string]).
Proof.
  apply (@X5_converged_point_is_fixed Q Q_arith no_draws descent_2x
           (1 # 10)%Q 1%Q (Some (Scalar 1%Q)) 1 None empty_world
           (Scalar 1%Q) []
           (mkWorld 0 ["Converged in 0 iterations. Breaking..."%string])
           0 7 None empty_world).
  - reflexivity.
  - reflexivity.
  - reflexivity.
Defined.

(** X6 on the objective [x^2] alone, no start, shape [(3,)]. *)
Lemma X6_witness :
  exists xf h w',
    optimize no_draws (mkGD (Some square) None) (1 # 10)%Q (1 # 1000)%Q
      None 2 (Some 3) empty_world = (Ok (xf, h), w')
    /\ entries xf = 3.
Proof.
  destruct (@X6_shapes_are_kept Q Q_arith no_draws (Some square) None
              (mkGD (Some square) None) square (1 # 10)%Q (1 # 1000)%Q
              None 2 (Some 3) empty_world eq_refl eq_refl
              square_shape_preserving) as (xf & h & w' & Hopt & Hn & _).
  exists xf, h, w'. split; [exact Hopt|exact Hn].
Defined.

(** X7 on [2 * x] in binary64, started at a NaN. *)
Lemma X7_witness :
  exists xf h w',
    optimize (fun _ => 0%float) float_descent_2x 0.1%float 1e-6%float
      (Some (Scalar PrimFloat.nan)) 3 None empty_world = (Ok (xf, h), w')
    /\ is_nan_point xf
    /\ List.length h = 3.
Proof.
  destruct (X7_nan_runs_the_whole_budget (fun _ => 0%float) float_descent_2x
              0.1%float 1e-6%float (Some (Scalar PrimFloat.nan)) 3 None
              empty_world eq_refl two_x_nan)
    as (xf & h & w' & Hopt & Hx & Hlen & _).
  exists xf, h, w'. split; [exact Hopt|]. split; [exact Hx|exact Hlen].
Defined.

(** X8 on [descent_2x]. *)
Lemma X8_witness :
  exists xf h w',
    optimize no_draws descent_2x (1 # 10)%Q (1 # 1000)%Q (Some (Scalar 1%Q))
      100 None empty_world = (Ok (xf, h), w')
    /\ forall k r, nth_error h k = Some r ->
         exists q, hist_x r = Array [q]
           /\ (q == 1 * Qpow (1 - 2 * (1 # 10)) (S k))%Q.
Proof.
  exact (X8_square_trajectory_is_geometric no_draws (1 # 10)%Q (1 # 1000)%Q
           1%Q 100 None empty_world descent_2x_square).
Defined.

(** X10 on ASCII characters and the name [GradientDescent]. *)
Lemma X10_witness :
  Forall (fun d => ascii_isupper d = false)
    (list_ascii_of_string (ascii_snake_case "GradientDescent"))
  /\ ascii_snake_case (ascii_snake_case "GradientDescent")
     = ascii_snake_case "GradientDescent".
Proof.
  assert (Hlow : forall c d, In d (ascii_lower c) ->
                   ascii_isupper d = false /\ ascii_lower d = [d]).
  { intros c d Hd. destruct (ascii_lower_single c) as (d' & Hc & Hu & Hl).
    rewrite Hc in Hd. destruct Hd as [<-|[]]. split; assumption. }
  destruct (@X10_snake_case_is_lower_and_idempotent ascii ascii_isupper
              ascii_lower "_"%char Hlow (conj eq_refl eq_refl)
              (list_ascii_of_string "GradientDescent")) as [Hno Hidem].
  unfold ascii_snake_case. rewrite !list_ascii_of_string_of_list_ascii.
  split; [exact Hno|]. rewrite Hidem. reflexivity.
Defined.

(** X11 on two spellings of one name. *)
Lemma X11_witness :
  list_ascii_of_string "GradientDescent"
  = list_ascii_of_string ("Gradient" ++ "Descent").
Proof.
  apply X11_snake_case_injective_on_names.
  - repeat constructor.
  - simpl. intuition discriminate.
  - simpl. intuition discriminate.
  - reflexivity.
  - reflexivity.
Defined.

(** X12 on colours that are booleans, inverted by negation. *)
Lemma X12_witness :
  snd (fst (get_colors negb false true true true true true true true true
              true))
  <> fst (fst (get_colors negb false true true true true true true true true
                 true)).
Proof.
  apply (proj2 (proj2 (proj2 (@X12_palette bool negb false true true true
                                true true true true true true)))).
  - intros [] []; simpl; congruence.
  - discriminate.
Defined.
